(** * Sijiao (four-corner code) lookup: the prefix index and the ingestion
      pipeline of [src/sijiao_lookup/src/App.jsx]

    The development embeds the two classes [TrieNode] and [Trie], the
    [processCSV] callback and the search effect of the [App] component, and
    proves the properties the specification states about them.

    JavaScript values are modelled as follows.
    - A string is the list of its UTF-16 code units ([Str.t]); [for ... of]
      over a string yields its code points, each as a string of one or two
      units ([Str.chars_of]).
    - [undefined] (an array read out of range) is [None].
    - A plain object used as a map is an association list in the order in
      which [for ... in] enumerates its own keys ([Obj]).
    - A [throw] caught by the enclosing [try] is the [Throw] completion. *)

From Stdlib Require Import String Ascii.
From Stdlib Require Import List NArith ZArith Bool Arith Lia.
From Stdlib Require Import Sorted Permutation.
Import ListNotations.
Local Open Scope list_scope.

Set Implicit Arguments.

(* ------------------------------------------------------------------ *)
(** * JavaScript strings *)

Module Str.

(** A string is a sequence of 16-bit code units. *)
Definition t := list N.

(** An ASCII literal of the source, as code units. *)
Definition lit (s : string) : t :=
  map N_of_ascii (list_ascii_of_string s).

(** [a === b] on strings. *)
Fixpoint eqb (a b : t) : bool :=
  match a, b with
  | [], [] => true
  | x :: a', y :: b' => N.eqb x y && eqb a' b'
  | _, _ => false
  end.

(** Truthiness of a string: [!s] holds exactly for the empty string. *)
Definition nonempty (s : t) : bool :=
  match s with [] => false | _ :: _ => true end.

(** The class [\d] of a regular expression without the [u] and [i] flags:
    the ten ASCII digits. *)
Definition is_digit (c : N) : bool := (48 <=? c)%N && (c <=? 57)%N.

(** [/^\d{4,5}$/.test(s)] *)
Definition test_d45 (s : t) : bool :=
  forallb is_digit s && ((length s =? 4) || (length s =? 5)).

(** [/^\d+$/.test(s)] *)
Definition test_dplus (s : t) : bool :=
  nonempty s && forallb is_digit s.

(** [s.split(sep)] for a separator of one code unit.  The result always has
    at least one element: [''.split(sep)] is [['']]. *)
Fixpoint split (sep : N) (s : t) : list t :=
  match s with
  | [] => [[]]
  | c :: rest =>
      if N.eqb c sep then [] :: split sep rest
      else match split sep rest with
           | [] => [[c]]
           | h :: tl => (c :: h) :: tl
           end
  end.

(** White space and line terminators, as [String.prototype.trim] strips
    them: TAB, LF, VT, FF, CR, SP, NBSP, U+1680, U+2000..U+200A, U+2028,
    U+2029, U+202F, U+205F, U+3000 and U+FEFF. *)
Definition is_space (c : N) : bool :=
  ((9 <=? c) && (c <=? 13) || (c =? 32) || (c =? 160) || (c =? 5760)
   || (8192 <=? c) && (c <=? 8202) || (c =? 8232) || (c =? 8233)
   || (c =? 8239) || (c =? 8287) || (c =? 12288) || (c =? 65279))%N.

Fixpoint trimStart (s : t) : t :=
  match s with
  | [] => []
  | c :: rest => if is_space c then trimStart rest else s
  end.

Definition trimEnd (s : t) : t := rev (trimStart (rev s)).

(** [s.trim()] *)
Definition trim (s : t) : t := trimEnd (trimStart s).

Definition is_high_surrogate (c : N) : bool := (55296 <=? c)%N && (c <=? 56319)%N.
Definition is_low_surrogate (c : N) : bool := (56320 <=? c)%N && (c <=? 57343)%N.

(** The elements [for (const char of s)] yields: one string per code point,
    a surrogate pair together, a lone surrogate on its own. *)
Fixpoint chars_of (s : t) : list t :=
  match s with
  | [] => []
  | hi :: rest =>
      match rest with
      | lo :: rest' =>
          if is_high_surrogate hi && is_low_surrogate lo
          then [hi; lo] :: chars_of rest'
          else [hi] :: chars_of rest
      | [] => [[hi]]
      end
  end.

(** The code point of one element of [chars_of]. *)
Definition code_point (c : t) : N :=
  match c with
  | [hi; lo] => (65536 + (hi - 55296) * 1024 + (lo - 56320))%N
  | [u] => u
  | _ => 0%N
  end.

Definition code_points (s : t) : list N := map code_point (chars_of s).

(** Lexicographic comparison of two sequences of numbers. *)
Fixpoint lex_compare (a b : list N) : comparison :=
  match a, b with
  | [], [] => Eq
  | [], _ :: _ => Lt
  | _ :: _, [] => Gt
  | x :: a', y :: b' =>
      match N.compare x y with
      | Eq => lex_compare a' b'
      | c => c
      end
  end.

(** Lexical comparison of two strings by code points. *)
Definition code_point_compare (a b : t) : comparison :=
  lex_compare (code_points a) (code_points b).

(** [String(num)] for the keypad values, the one-digit numbers 0..9. *)
Definition of_digit (num : N) : t := [(48 + num)%N].

End Str.

(* ------------------------------------------------------------------ *)
(** * Plain objects used as maps *)

Module Obj.

Section Props.
Variable V : Type.

(** An object's own properties, in the order [for ... in] visits them:
    array-index keys in ascending numeric order first, then the other
    string keys in the order they were created. *)
Definition t := list (Str.t * V).

(** The value of a decimal numeral. *)
Definition decimal (k : Str.t) : N :=
  fold_left (fun acc c => (10 * acc + (c - 48))%N) k 0%N.

(** A key is an array index when it is the canonical decimal numeral of an
    integer below 2^32 - 1. *)
Definition array_index (k : Str.t) : option N :=
  match k with
  | [] => None
  | c :: rest =>
      if forallb Str.is_digit k
         && (negb (N.eqb c 48) || negb (Str.nonempty rest))
         && (decimal k <=? 4294967294)%N
      then Some (decimal k) else None
  end.

(** [o[k]], [None] for [undefined].  Only own properties are looked up:
    the keys the trie uses are single characters, and [Object.prototype]
    has no property of such a name. *)
Fixpoint get (o : t) (k : Str.t) : option V :=
  match o with
  | [] => None
  | (k', v) :: rest => if Str.eqb k' k then Some v else get rest k
  end.

(** Where a new array-index key [i] goes: before the first key that is not
    an array index or is a larger one. *)
Fixpoint add_index (o : t) (i : N) (k : Str.t) (v : V) : t :=
  match o with
  | [] => [(k, v)]
  | (k', v') :: rest =>
      match array_index k' with
      | Some i' =>
          if (i' <? i)%N then (k', v') :: add_index rest i k v
          else (k, v) :: o
      | None => (k, v) :: o
      end
  end.

(** Replaces the value of the existing key [k], keeping its place. *)
Fixpoint replace (o : t) (k : Str.t) (v : V) : t :=
  match o with
  | [] => []
  | (k', v') :: rest =>
      if Str.eqb k' k then (k, v) :: rest else (k', v') :: replace rest k v
  end.

(** [o[k] = v] *)
Definition set (o : t) (k : Str.t) (v : V) : t :=
  match get o k with
  | Some _ => replace o k v
  | None =>
      match array_index k with
      | Some i => add_index o i k v
      | None => o ++ [(k, v)]
      end
  end.

End Props.

End Obj.

(* ------------------------------------------------------------------ *)
(** * The trie *)

(** The object literal [{ char, def: definition, cantonese, pinyin }] that
    [processCSV] passes to [insert].  [columns[i]] is [undefined] when the
    line has no column [i]; [definition] is always a string. *)
Record CharData := mkCharData {
  char : option Str.t;
  def : Str.t;
  cantonese : option Str.t;
  pinyin : option Str.t
}.

(** The stored object [{ ...data, code }]. *)
Record Entry := mkEntry {
  data : CharData;
  code : Str.t
}.

(** [class TrieNode]: [children] maps a character to a node, [characters]
    holds the entries ending at this node. *)
Local Unset Elimination Schemes.
Inductive TrieNode : Type :=
  mkTrieNode (children : Obj.t TrieNode) (characters : list Entry).
Local Set Elimination Schemes.

Definition children (node : TrieNode) : Obj.t TrieNode :=
  match node with mkTrieNode ch _ => ch end.

Definition characters (node : TrieNode) : list Entry :=
  match node with mkTrieNode _ cs => cs end.

(** [new TrieNode()] *)
Definition newTrieNode : TrieNode := mkTrieNode [] [].

(** [class Trie] *)
Record Trie := mkTrie { root : TrieNode }.

(** [new Trie()] *)
Definition newTrie : Trie := mkTrie newTrieNode.

(** The loop of [insert] from [node] on, followed by the final [push].  The
    source updates the nodes in place; here the updated node is returned. *)
Fixpoint insert_from (chars : list Str.t) (entry : Entry) (node : TrieNode)
  : TrieNode :=
  match chars with
  | [] => mkTrieNode (children node) (characters node ++ [entry])
  | char :: rest =>
      let child :=
        match Obj.get (children node) char with
        | Some n => n
        | None => newTrieNode
        end in
      mkTrieNode (Obj.set (children node) char (insert_from rest entry child))
                 (characters node)
  end.

(** [Trie.insert(code, data)] *)
Definition insert (code : Str.t) (data : CharData) (trie : Trie) : Trie :=
  if negb (Str.nonempty code) then trie
  else mkTrie (insert_from (Str.chars_of code) (mkEntry data code) (root trie)).

(** [Trie.collectAll(node)]: a copy of the node's entries, then the
    entries of each child in the order of [for ... in]. *)
Fixpoint collectAll (node : TrieNode) : list Entry :=
  match node with
  | mkTrieNode ch cs =>
      fold_left (fun results kc => results ++ collectAll (snd kc)) ch cs
  end.

(** The loop of [search]: the node the characters lead to, if any. *)
Fixpoint walk (chars : list Str.t) (node : TrieNode) : option TrieNode :=
  match chars with
  | [] => Some node
  | char :: rest =>
      match Obj.get (children node) char with
      | None => None
      | Some child => walk rest child
      end
  end.

(** [Trie.search(prefix)] *)
Definition search (trie : Trie) (prefix : Str.t) : list Entry :=
  match walk (Str.chars_of prefix) (root trie) with
  | None => []
  | Some node => collectAll node
  end.

(* ------------------------------------------------------------------ *)
(** * Ingestion: [processCSV] *)

(** The outcome of a block that may [throw]. *)
Inductive Completion (A : Type) : Type :=
| Normal (value : A)
| Throw (message : Str.t).
Arguments Normal {A} value.
Arguments Throw {A} message.

Definition newline : N := 10.
Definition pipe : N := 124.

(** [cols[i]] for a number [i]: [undefined] out of range. *)
Definition at_index (cols : list Str.t) (i : Z) : option Str.t :=
  if (i <? 0)%Z then None else nth_error cols (Z.to_nat i).

(** Truthiness of a value that is a string or [undefined]. *)
Definition truthy (v : option Str.t) : bool :=
  match v with
  | Some s => Str.nonempty s
  | None => false
  end.

(** The inner loop of the detection (lines 181-186): the index of the first
    column from [j] on that is four or five digits, [-1] if there is none. *)
Fixpoint scan_columns (cols : list Str.t) (j : Z) : Z :=
  match cols with
  | [] => (-1)%Z
  | c :: rest => if Str.test_d45 c then j else scan_columns rest (j + 1)%Z
  end.

(** The outer loop of the detection (lines 176-188) over the sampled
    lines. *)
Fixpoint scan_lines (sample : list Str.t) : Z :=
  match sample with
  | [] => (-1)%Z
  | line :: rest =>
      let cols := Str.split pipe line in
      if length cols <? 5 then scan_lines rest
      else
        let codeIndex := scan_columns cols 0%Z in
        if (codeIndex =? -1)%Z then scan_lines rest else codeIndex
  end.

(** The value of [codeIndex] after the detection loop. *)
Definition detect_code_index (lines : list Str.t) : Z :=
  scan_lines (firstn (Nat.min (length lines) 50) lines).

(** [v || d] for a value that is a string or [undefined]. *)
Definition or_default (v : option Str.t) (d : Str.t) : Str.t :=
  match v with
  | Some s => if Str.nonempty s then s else d
  | None => d
  end.

(** [/^\d+$/.test(v)]: [undefined] is converted to the string
    "undefined", which is not a numeral. *)
Definition test_dplus_value (v : option Str.t) : bool :=
  match v with
  | Some s => Str.test_dplus s
  | None => false
  end.

(** The test of line 206 on the columns of a line. *)
Definition accepts (codeIndex : Z) (columns : list Str.t) : bool :=
  let char := at_index columns 0%Z in
  let definition := or_default (at_index columns 2%Z) [] in
  let pinyin := at_index columns 9%Z in
  let code := at_index columns codeIndex in
  truthy char && truthy code && test_dplus_value code
  && Str.nonempty definition && truthy pinyin.

(** The object literal of lines 207-212. *)
Definition row_data (columns : list Str.t) : CharData :=
  {| char := at_index columns 0%Z;
     def := or_default (at_index columns 2%Z) [];
     cantonese := at_index columns 1%Z;
     pinyin := at_index columns 9%Z |}.

(** [newTrie.insert(code, ...)] where [code] may be [undefined], for which
    [insert] returns at once. *)
Definition insert_value (code : option Str.t) (d : CharData) (trie : Trie)
  : Trie :=
  match code with
  | Some c => insert c d trie
  | None => trie
  end.

(** One iteration of the row loop (lines 195-214) on the pair of [newTrie]
    and [count]. *)
Definition process_line (codeIndex : Z) (acc : Trie * nat) (raw : Str.t)
  : Trie * nat :=
  let line := Str.trim raw in
  if negb (Str.nonempty line) then acc
  else
    let columns := Str.split pipe line in
    if accepts codeIndex columns
    then (insert_value (at_index columns codeIndex) (row_data columns) (fst acc),
          S (snd acc))
    else acc.

(** The row loop (lines 194-215). *)
Definition ingest (codeIndex : Z) (lines : list Str.t) (acc : Trie * nat)
  : Trie * nat :=
  fold_left (process_line codeIndex) lines acc.

Definition detection_error : Str.t :=
  Str.lit "Could not automatically detect the Four Corner Code column in the CSV.".

(** The [try] block of [processCSV] up to the state updates (lines
    169-215): the new trie with the count, or the thrown error's message. *)
Definition build_index (text : Str.t) : Completion (Trie * nat) :=
  let lines := Str.split newline text in
  let codeIndex := detect_code_index lines in
  if (codeIndex =? -1)%Z then Throw detection_error
  else Normal (ingest codeIndex lines (newTrie, 0)).

(** The state of the [App] component that the core reads and writes (the
    [useState] cells; [selectedChar] and [isFullscreen] belong to the view
    and are left out). *)
Record AppState := mkAppState {
  trie : option Trie;
  inputCode : Str.t;
  results : list Entry;
  loading : bool;
  error : option Str.t;
  datasetSize : nat;
  showUploader : bool
}.

(** The initial values of the [useState] cells. *)
Definition initialState : AppState :=
  {| trie := None; inputCode := []; results := []; loading := true;
     error := None; datasetSize := 0; showUploader := false |}.

(** The success branch of [processCSV] (lines 217-221). *)
Definition publish (newTrie : Trie) (count : nat) (st : AppState) : AppState :=
  {| trie := Some newTrie;
     inputCode := inputCode st;
     results := results st;
     loading := false;
     error := None;
     datasetSize := count;
     showUploader := false |}.

(** The [catch] branch of [processCSV] (lines 222-227) for an error with
    the given message. *)
Definition on_catch (message : Str.t) (st : AppState) : AppState :=
  {| trie := trie st;
     inputCode := inputCode st;
     results := results st;
     loading := false;
     error := Some (if Str.nonempty message then message
                    else Str.lit "Failed to process data.");
     datasetSize := datasetSize st;
     showUploader := true |}.

(** [processCSV(text)] *)
Definition processCSV (text : Str.t) (st : AppState) : AppState :=
  match build_index text with
  | Normal (newTrie, count) => publish newTrie count st
  | Throw message => on_catch message st
  end.

(* ------------------------------------------------------------------ *)
(** * Arrays *)

Module Arr.

Section Ops.
Variable A : Type.

(** The place of [x] in an already ordered array: before the first element
    that [compareFn] does not put before it. *)
Fixpoint insert_sorted (compareFn : A -> A -> Z) (x : A) (sorted : list A)
  : list A :=
  match sorted with
  | [] => [x]
  | y :: rest =>
      if (compareFn x y <=? 0)%Z then x :: sorted
      else y :: insert_sorted compareFn x rest
  end.

(** [arr.sort(compareFn)].  The language fixes the outcome for a consistent
    comparator: the stable ordering of the elements.  It is computed here
    by insertion, each element going before the elements it does not
    follow. *)
Definition sort (compareFn : A -> A -> Z) (arr : list A) : list A :=
  fold_right (insert_sorted compareFn) [] arr.

(** [arr.slice(first, last)] for [0 <= first <= last]. *)
Definition slice (first last : nat) (arr : list A) : list A :=
  firstn (last - first) (skipn first arr).

End Ops.

End Arr.

(* ------------------------------------------------------------------ *)
(** * The [App] component: search effect and handlers *)

Section App.

(** [a.localeCompare(b)] of the host: negative, zero or positive.  Its
    result depends on the host's collation, so it is a parameter. *)
Variable localeCompare : Str.t -> Str.t -> Z.

(** The comparator of lines 262-266. *)
Definition compare_matches (inputCode : Str.t) (a b : Entry) : Z :=
  if Str.eqb (code a) inputCode && negb (Str.eqb (code b) inputCode)
  then (-1)%Z
  else if Str.eqb (code b) inputCode && negb (Str.eqb (code a) inputCode)
  then 1%Z
  else localeCompare (code a) (code b).

Definition set_results (r : list Entry) (st : AppState) : AppState :=
  {| trie := trie st; inputCode := inputCode st; results := r;
     loading := loading st; error := error st;
     datasetSize := datasetSize st; showUploader := showUploader st |}.

Definition set_inputCode (c : Str.t) (st : AppState) : AppState :=
  {| trie := trie st; inputCode := c; results := results st;
     loading := loading st; error := error st;
     datasetSize := datasetSize st; showUploader := showUploader st |}.

(** The search effect (lines 252-270).  Besides the next state it returns
    the prefixes it passed to [Trie.search], in order: the queries it
    performed. *)
Definition searchEffect (st : AppState) : AppState * list Str.t :=
  match trie st with
  | None => (st, [])
  | Some index =>
      if length (inputCode st) =? 0 then (set_results [] st, [])
      else
        let matches := search index (inputCode st) in
        let matches := Arr.sort (compare_matches (inputCode st)) matches in
        (set_results (Arr.slice 0 100 matches) st, [inputCode st])
  end.

(** [handleKeyPress(key)] for a keypad value. *)
Definition handleKeyPress (key : N) (st : AppState) : AppState :=
  if length (inputCode st) <? 5
  then set_inputCode (inputCode st ++ Str.of_digit key) st
  else st.

(** [handleDelete()]: [prev.slice(0, -1)]. *)
Definition handleDelete (st : AppState) : AppState :=
  set_inputCode (removelast (inputCode st)) st.

(** [handleClear()] *)
Definition handleClear (st : AppState) : AppState :=
  set_inputCode [] st.

(** The [catch] branch of [fetchData] (lines 239-244). *)
Definition on_fetch_failed (st : AppState) : AppState :=
  {| trie := trie st; inputCode := inputCode st; results := results st;
     loading := false;
     error := Some (Str.lit "Could not auto-load data (likely CORS). Please download the CSV manually and upload it below.");
     datasetSize := datasetSize st; showUploader := true |}.

(** [handleFileUpload] before the file is read: [setLoading(true)]. *)
Definition on_upload_started (st : AppState) : AppState :=
  {| trie := trie st; inputCode := inputCode st; results := results st;
     loading := true; error := error st;
     datasetSize := datasetSize st; showUploader := showUploader st |}.

(** What can happen to the component. *)
Inductive Event : Type :=
| TextArrived (text : Str.t)   (* the fetched or uploaded text reaches processCSV *)
| FetchFailed
| UploadStarted
| KeyPressed (key : N)
| DeletePressed
| ClearPressed
| SearchEffectRan.

Definition step (ev : Event) (st : AppState) : AppState :=
  match ev with
  | TextArrived text => processCSV text st
  | FetchFailed => on_fetch_failed st
  | UploadStarted => on_upload_started st
  | KeyPressed key => handleKeyPress key st
  | DeletePressed => handleDelete st
  | ClearPressed => handleClear st
  | SearchEffectRan => fst (searchEffect st)
  end.

(** The keypad offers the values 0 to 9 only (lines 387-404). *)
Definition keypad_event (ev : Event) : Prop :=
  match ev with
  | KeyPressed key => (key <= 9)%N
  | _ => True
  end.

(** The states the component can be in. *)
Inductive reachable : AppState -> Prop :=
| reachable_initial : reachable initialState
| reachable_step : forall st ev,
    reachable st -> keypad_event ev -> reachable (step ev st).

End App.

(* ------------------------------------------------------------------ *)
(** * Notions used to state the properties *)

(** A string of ASCII digits. *)
Definition all_digits (s : Str.t) : Prop :=
  Forall (fun c => (48 <= c <= 57)%N) s.

(** Four or five ASCII digits and nothing else. *)
Definition is_code45 (s : Str.t) : Prop :=
  all_digits s /\ (length s = 4 \/ length s = 5).

(** One or more ASCII digits and nothing else. *)
Definition is_numeral (s : Str.t) : Prop :=
  s <> [] /\ all_digits s.

(** Column [i] exists and is not empty. *)
Definition present (columns : list Str.t) (i : Z) : Prop :=
  exists c, at_index columns i = Some c /\ c <> [].

(** Column [j] is the first column of the row that is a 4-5 digit code. *)
Definition first_code_column (cols : list Str.t) (j : nat) : Prop :=
  (exists c, nth_error cols j = Some c /\ is_code45 c)
  /\ (forall j' c', j' < j -> nth_error cols j' = Some c' -> ~ is_code45 c').

(** A sampled line that gives no code column: it has fewer than five
    columns, or none of its columns is a 4-5 digit code. *)
Definition no_code_column (line : Str.t) : Prop :=
  length (Str.split pipe line) < 5
  \/ (forall c, In c (Str.split pipe line) -> ~ is_code45 c).

(** [p] is a prefix of [s], as strings. *)
Definition starts_with (p s : Str.t) : Prop :=
  exists rest, s = p ++ rest.

(** The index built by a sequence of [insert] calls on a new trie. *)
Definition inserted (ops : list (Str.t * CharData)) : Trie :=
  fold_left (fun t op => insert (fst op) (snd op) t) ops newTrie.

(** The number of entries stored in a subtree: the sum of the lengths of
    the [characters] arrays of its nodes. *)
Fixpoint total_records (node : TrieNode) : nat :=
  match node with
  | mkTrieNode ch cs =>
      length cs + list_sum (map (fun kc => total_records (snd kc)) ch)
  end.

(** The order of the result list for the query [q]: an entry whose code is
    [q] is not after one whose code is not, and two entries that are both
    exact or both not are in ascending code-point order of their codes. *)
Definition in_result_order (q : Str.t) (a b : Entry) : Prop :=
  (code b = q -> code a = q)
  /\ ((code a = q <-> code b = q) ->
      Str.code_point_compare (code a) (code b) <> Gt).

(** The sign of a number. *)
Definition sign_of (c : comparison) : Z :=
  match c with Lt => (-1)%Z | Eq => 0%Z | Gt => 1%Z end.

(** A collation that orders strings of ASCII digits as their code points
    do, which every host collation does. *)
Definition collates_digits (localeCompare : Str.t -> Str.t -> Z) : Prop :=
  forall a b, all_digits a -> all_digits b ->
    Z.sgn (localeCompare a b) = sign_of (Str.code_point_compare a b).

(** The comparison by code points as a collation. *)
Definition ordinal_compare (a b : Str.t) : Z :=
  sign_of (Str.code_point_compare a b).

(** Every entry stored in the index has a code of ASCII digits. *)
Definition digit_codes (index : Trie) : Prop :=
  Forall (fun e => all_digits (code e)) (collectAll (root index)).

(** The structural invariant of the index: the entries held by the node
    reached along [path] are those whose code reads [path], character by
    character, and the same holds below each child. *)
Local Unset Elimination Schemes.
Inductive keyed_by_path : list Str.t -> TrieNode -> Prop :=
| keyed_node : forall path ch cs,
    Forall (fun e => Str.chars_of (code e) = path) cs ->
    Forall (fun kc => keyed_by_path (path ++ [fst kc]) (snd kc)) ch ->
    keyed_by_path path (mkTrieNode ch cs).
Local Set Elimination Schemes.

(** What holds of the trie and the count during the row loop. *)
Definition sound_index (acc : Trie * nat) : Prop :=
  digit_codes (fst acc)
  /\ keyed_by_path [] (root (fst acc))
  /\ snd acc = total_records (root (fst acc)).

(** The component's state after a sequence of events. *)
Definition run (localeCompare : Str.t -> Str.t -> Z) (events : list Event)
           (st : AppState) : AppState :=
  fold_left (fun s ev => step localeCompare ev s) events st.

(** What holds of every state the component reaches: a published index is
    sound, and as long as none is published no result is shown. *)
Definition state_invariant (st : AppState) : Prop :=
  (forall index, trie st = Some index ->
     digit_codes index /\ keyed_by_path [] (root index))
  /\ (trie st = None -> results st = []).

(** The node a search for [prefix] collects from, a new node standing for
    a missing one. *)
Definition node_at (index : Trie) (prefix : Str.t) : TrieNode :=
  match walk (Str.chars_of prefix) (root index) with
  | Some n => n
  | None => newTrieNode
  end.

(* ------------------------------------------------------------------ *)
(** * Sample data *)

(** The lines joined by line feeds. *)
Fixpoint unlines (rows : list Str.t) : Str.t :=
  match rows with
  | [] => []
  | [r] => r
  | r :: rest => r ++ newline :: unlines rest
  end.

(** A row of the reference layout: character, Cantonese, definition, six
    further columns, pinyin, code. *)
Definition sample_row : Str.t :=
  [26412%N] ++ Str.lit "|bun2|root; origin|3|4|5|6|7|8|ben3|5023".

(** Five rows: three valid ones (one of them without Cantonese and with a
    three-digit code), one without pinyin, one with a code that is not a
    numeral. *)
Definition sample_text : Str.t :=
  unlines [ sample_row;
            Str.lit "B|b|no pinyin|3|4|5|6|7|8||5024";
            Str.lit "C|c|bad code|3|4|5|6|7|8|p|50x3";
            Str.lit "D|d|long code|3|4|5|6|7|8|p|50231";
            Str.lit "E||short code|3|4|5|6|7|8|p|502";
            [] ].

(** Three rows with the codes 12345, 1234 and 123, in this order. *)
Definition ordering_text : Str.t :=
  unlines [ Str.lit "A|a|first|3|4|5|6|7|8|p|12345";
            Str.lit "B|b|second|3|4|5|6|7|8|p|1234";
            Str.lit "C|c|third|3|4|5|6|7|8|p|123" ].

(** One hundred and fifty rows with the code 1234. *)
Definition crowded_text : Str.t :=
  unlines (repeat (Str.lit "A|a|same|3|4|5|6|7|8|p|1234") 150).

(** A text whose only row has a code column but no pinyin column. *)
Definition rejected_text : Str.t := Str.lit "1234|a|b|c|d".

(** A text without a column of four or five digits. *)
Definition codeless_text : Str.t :=
  unlines [ Str.lit "A|a|first|3|4|5|6|7|8|p|123";
            Str.lit "B|b|second|3|4|5|6|7|8|p|123456" ].

Definition sample_data : CharData :=
  {| char := Some [26412%N]; def := Str.lit "root; origin";
     cantonese := Some (Str.lit "bun2"); pinyin := Some (Str.lit "ben3") |}.

Definition other_data : CharData :=
  {| char := Some [26408%N]; def := Str.lit "tree; wood";
     cantonese := None; pinyin := Some (Str.lit "mu4") |}.

(** The user loads [ordering_text] and types 1, 2, 3. *)
Definition ordering_state : AppState :=
  run ordinal_compare
      [TextArrived ordering_text; KeyPressed 1; KeyPressed 2; KeyPressed 3]
      initialState.

(** The user loads [crowded_text] and types 1. *)
Definition crowded_state : AppState :=
  run ordinal_compare [TextArrived crowded_text; KeyPressed 1] initialState.

(** The user loads [sample_text] and has typed nothing. *)
Definition idle_state : AppState :=
  run ordinal_compare [TextArrived sample_text; SearchEffectRan] initialState.

(* ------------------------------------------------------------------ *)
(** * Further notions: what an index holds and what a text contributes *)

(** [q] is an initial segment of [l]. *)
Fixpoint prefixb (q l : list Str.t) : bool :=
  match q, l with
  | [], _ => true
  | a :: q', b :: l' => Str.eqb a b && prefixb q' l'
  | _ :: _, [] => false
  end.

(** The characters of the query [p] are the first characters of the code
    [c]: the walk of [search] along [p] follows the path of [c]. *)
Definition leads_to (p c : Str.t) : bool :=
  prefixb (Str.chars_of p) (Str.chars_of c).

(** The entry [insert(code, data)] stores. *)
Definition entry_of (op : Str.t * CharData) : Entry :=
  mkEntry (snd op) (fst op).

(** The entries a sequence of [insert] calls stores: one for each call
    with a non-empty code, in the order of the calls. *)
Definition stored (ops : list (Str.t * CharData)) : list Entry :=
  map entry_of (filter (fun op => Str.nonempty (fst op)) ops).

(** The code and the data of the line, if the row loop accepts it. *)
Definition accepted_row (codeIndex : Z) (raw : Str.t)
  : option (Str.t * CharData) :=
  let line := Str.trim raw in
  if negb (Str.nonempty line) then None
  else
    let columns := Str.split pipe line in
    if accepts codeIndex columns
    then match at_index columns codeIndex with
         | Some c => Some (c, row_data columns)
         | None => None
         end
    else None.

(** The accepted rows of the lines, in order. *)
Definition accepted_rows (codeIndex : Z) (lines : list Str.t)
  : list (Str.t * CharData) :=
  flat_map (fun raw => match accepted_row codeIndex raw with
                       | Some op => [op]
                       | None => []
                       end) lines.

(** A record as the data model wants it: character, definition and pinyin
    present, the code a numeral. *)
Definition valid_record (e : Entry) : Prop :=
  truthy (char (data e)) = true
  /\ def (data e) <> []
  /\ truthy (pinyin (data e)) = true
  /\ is_numeral (code e).

(** How the request of [fetchData] ends: [fetch] or [response.text()]
    rejects, or a response arrives with its [ok] flag and its text. *)
Inductive FetchOutcome : Type :=
| Rejected
| Responded (ok : bool) (text : Str.t).

(** [fetchData()] (lines 233-245), once the request has ended. *)
Definition fetchData (outcome : FetchOutcome) (st : AppState) : AppState :=
  match outcome with
  | Responded true text => processCSV text st
  | Responded false _ => on_fetch_failed st
  | Rejected => on_fetch_failed st
  end.

(** What holds of the records and the query in every state the component
    reaches: a published index was built from some text, the results are
    valid records and at most 100, the query is at most five ASCII
    digits. *)
Definition records_invariant (st : AppState) : Prop :=
  (forall index, trie st = Some index ->
     exists text count, build_index text = Normal (index, count))
  /\ Forall valid_record (results st)
  /\ length (results st) <= 100
  /\ length (inputCode st) <= 5
  /\ all_digits (inputCode st).

(** A text with Windows line ends: every line, the last one included, ends
    with a carriage return before the line feed. *)
Definition crlf_text : Str.t :=
  unlines [ sample_row ++ [13%N];
            Str.lit "D|d|long code|3|4|5|6|7|8|p|50231" ++ [13%N];
            [] ].

(** A key that is one ASCII digit. *)
Definition digit_key (k : Str.t) : Prop :=
  exists d, k = [d] /\ (48 <= d <= 57)%N.

(** Two one-character keys in ascending order. *)
Definition key_lt (k1 k2 : Str.t) : Prop :=
  exists d1 d2, k1 = [d1] /\ k2 = [d2] /\ (d1 < d2)%N.

(** The children of the node, and of every node below it, are keyed by
    single ASCII digits and enumerated in ascending order of the digit. *)
Local Unset Elimination Schemes.
Inductive digit_keyed : TrieNode -> Prop :=
| digit_keyed_node : forall ch cs,
    Forall (fun kc => digit_key (fst kc)) ch ->
    StronglySorted (fun a b => key_lt (fst a) (fst b)) ch ->
    Forall (fun kc => digit_keyed (snd kc)) ch ->
    digit_keyed (mkTrieNode ch cs).
Local Set Elimination Schemes.

(** The code of [a] is not after the code of [b], code unit by code
    unit. *)
Definition code_le (a b : Entry) : Prop :=
  Str.lex_compare (code a) (code b) <> Gt.

(* ------------------------------------------------------------------ *)
(** * Properties *)

(** ** Strings *)

Lemma str_eqb_eq (a b : Str.t) : Str.eqb a b = true <-> a = b.
Proof.
  revert b; induction a as [|x a IH]; intros [|y b]; simpl;
    try (split; congruence).
  rewrite andb_true_iff, N.eqb_eq, IH.
  split; [intros [-> ->]; reflexivity | intros H; inversion H; auto].
Qed.

Lemma str_eqb_refl (a : Str.t) : Str.eqb a a = true.
Proof. apply str_eqb_eq; reflexivity. Qed.

Lemma str_eqb_neq (a b : Str.t) : Str.eqb a b = false <-> a <> b.
Proof.
  rewrite <- str_eqb_eq. destruct (Str.eqb a b); split; congruence.
Qed.

Lemma nonempty_spec (s : Str.t) : Str.nonempty s = true <-> s <> [].
Proof. destruct s; simpl; split; congruence. Qed.

Lemma is_digit_spec (c : N) : Str.is_digit c = true <-> (48 <= c <= 57)%N.
Proof.
  unfold Str.is_digit. rewrite andb_true_iff, !N.leb_le. tauto.
Qed.

Lemma forallb_digit_spec (s : Str.t) :
  forallb Str.is_digit s = true <-> all_digits s.
Proof.
  unfold all_digits. rewrite forallb_forall, Forall_forall.
  split; intros H c Hc; apply is_digit_spec, H, Hc.
Qed.

Lemma test_d45_spec (s : Str.t) : Str.test_d45 s = true <-> is_code45 s.
Proof.
  unfold Str.test_d45, is_code45.
  rewrite andb_true_iff, orb_true_iff, !Nat.eqb_eq, forallb_digit_spec.
  tauto.
Qed.

Lemma test_dplus_spec (s : Str.t) : Str.test_dplus s = true <-> is_numeral s.
Proof.
  unfold Str.test_dplus, is_numeral.
  rewrite andb_true_iff, nonempty_spec, forallb_digit_spec. tauto.
Qed.

Lemma split_not_nil (sep : N) (s : Str.t) : Str.split sep s <> [].
Proof.
  destruct s as [|c s]; simpl; [discriminate|].
  destruct (N.eqb c sep); [discriminate|].
  destruct (Str.split sep s); discriminate.
Qed.

(** Induction on strings two code units at a time. *)
Lemma pair_induction (P : Str.t -> Prop) :
  P [] -> (forall c, P [c]) ->
  (forall hi lo s, P s -> P (lo :: s) -> P (hi :: lo :: s)) ->
  forall s, P s.
Proof.
  intros H0 H1 H2 s.
  assert (H : P s /\ forall c, P (c :: s)).
  { induction s as [|c s [IHa IHb]]; split; auto. }
  apply H.
Qed.

Lemma concat_chars_of (s : Str.t) : concat (Str.chars_of s) = s.
Proof.
  induction s as [|c|hi lo s IH1 IH2] using pair_induction; try reflexivity.
  change (Str.chars_of (hi :: lo :: s)) with
    (if Str.is_high_surrogate hi && Str.is_low_surrogate lo
     then [hi; lo] :: Str.chars_of s
     else [hi] :: Str.chars_of (lo :: s)).
  destruct (Str.is_high_surrogate hi && Str.is_low_surrogate lo);
    cbn [concat app]; [rewrite IH1 | rewrite IH2]; reflexivity.
Qed.

Lemma chars_of_digits (s : Str.t) :
  all_digits s -> Str.chars_of s = map (fun c => [c]) s.
Proof.
  induction s as [|c|hi lo s IH1 IH2] using pair_induction; intros H;
    try reflexivity.
  inversion H as [|? ? Hhi H']; subst.
  change (Str.chars_of (hi :: lo :: s)) with
    (if Str.is_high_surrogate hi && Str.is_low_surrogate lo
     then [hi; lo] :: Str.chars_of s
     else [hi] :: Str.chars_of (lo :: s)).
  assert (Str.is_high_surrogate hi = false) as ->.
  { unfold Str.is_high_surrogate. apply andb_false_iff. left.
    apply N.leb_gt. lia. }
  simpl andb. cbv iota. rewrite IH2 by assumption. reflexivity.
Qed.

Lemma code_points_digits (s : Str.t) :
  all_digits s -> Str.code_points s = s.
Proof.
  intros H. unfold Str.code_points. rewrite chars_of_digits by assumption.
  rewrite map_map. simpl. apply map_id.
Qed.

(** ** Lexicographic comparison is a total preorder *)

Lemma lex_compare_refl (a : list N) : Str.lex_compare a a = Eq.
Proof.
  induction a as [|x a IH]; simpl; [reflexivity|].
  rewrite N.compare_refl. exact IH.
Qed.

Lemma lex_compare_antisym (a b : list N) :
  Str.lex_compare b a = CompOpp (Str.lex_compare a b).
Proof.
  revert b; induction a as [|x a IH]; intros [|y b]; simpl; try reflexivity.
  rewrite (N.compare_antisym x y).
  destruct (N.compare x y); simpl; auto.
Qed.

Lemma lex_compare_trans (a b c : list N) :
  Str.lex_compare a b <> Gt -> Str.lex_compare b c <> Gt ->
  Str.lex_compare a c <> Gt.
Proof.
  revert b c; induction a as [|x a IH]; intros [|y b] [|z c]; simpl;
    try congruence.
  destruct (N.compare_spec x y) as [->|Hxy|Hxy]; try congruence.
  - destruct (N.compare y z); try congruence; eauto.
  - intros _.
    destruct (N.compare_spec y z) as [->|Hyz|Hyz]; try congruence; intros _.
    + apply N.compare_lt_iff in Hxy. rewrite Hxy. congruence.
    + assert (H : (x < z)%N) by lia.
      apply N.compare_lt_iff in H. rewrite H. congruence.
Qed.

(** ** Objects as maps *)

Section ObjFacts.
Variable V : Type.
Implicit Types (o : Obj.t V) (k : Str.t) (v : V).

Lemma get_app o1 o2 k :
  Obj.get (o1 ++ o2) k =
  match Obj.get o1 k with Some v => Some v | None => Obj.get o2 k end.
Proof.
  induction o1 as [|[k' v'] o1 IH]; simpl; [reflexivity|].
  destruct (Str.eqb k' k); auto.
Qed.

Lemma replace_spec o k v old :
  Obj.get o k = Some old ->
  exists l1 l2, o = l1 ++ (k, old) :: l2
                /\ Obj.replace o k v = l1 ++ (k, v) :: l2
                /\ Obj.get l1 k = None.
Proof.
  induction o as [|[k' v'] o IH]; simpl; [discriminate|].
  destruct (Str.eqb k' k) eqn:E.
  - intros [= ->]. apply str_eqb_eq in E. subst k'.
    exists [], o. auto.
  - intros H. destruct (IH H) as (l1 & l2 & -> & Hr & Hg).
    exists ((k', v') :: l1), l2. simpl. rewrite Hr, E. auto.
Qed.

Lemma add_index_spec o i k v :
  exists l1 l2, o = l1 ++ l2 /\ Obj.add_index o i k v = l1 ++ (k, v) :: l2.
Proof.
  induction o as [|[k' v'] o (l1 & l2 & Ho & Ha)]; simpl.
  - exists [], []. auto.
  - destruct (Obj.array_index k') as [i'|].
    + destruct (i' <? i)%N.
      * exists ((k', v') :: l1), l2. simpl. rewrite Ha, <- Ho. auto.
      * exists [], ((k', v') :: o). auto.
    + exists [], ((k', v') :: o). auto.
Qed.

(** An assignment either adds one property somewhere in the enumeration
    order or replaces the value of the property in place. *)
Lemma set_spec o k v :
  (Obj.get o k = None
   /\ exists l1 l2, o = l1 ++ l2 /\ Obj.set o k v = l1 ++ (k, v) :: l2)
  \/ (exists old l1 l2,
        Obj.get o k = Some old /\ o = l1 ++ (k, old) :: l2
        /\ Obj.set o k v = l1 ++ (k, v) :: l2 /\ Obj.get l1 k = None).
Proof.
  unfold Obj.set. destruct (Obj.get o k) as [old|] eqn:G.
  - right. destruct (@replace_spec o k v old G) as (l1 & l2 & Ho & Hr & Hg).
    exists old, l1, l2. auto.
  - left. split; [reflexivity|].
    destruct (Obj.array_index k) as [i|].
    + apply add_index_spec.
    + exists o, []. rewrite app_nil_r. auto.
Qed.

Lemma get_set_same o k v : Obj.get (Obj.set o k v) k = Some v.
Proof.
  destruct (set_spec o k v) as [(G & l1 & l2 & Ho & ->)
                               |(old & l1 & l2 & G & Ho & -> & G1)].
  - subst o. rewrite get_app in G |- *.
    destruct (Obj.get l1 k); [discriminate|].
    simpl. rewrite str_eqb_refl. reflexivity.
  - rewrite get_app, G1. simpl. rewrite str_eqb_refl. reflexivity.
Qed.

Lemma get_in o k v : Obj.get o k = Some v -> In (k, v) o.
Proof.
  induction o as [|[k' v'] o IH]; simpl; [discriminate|].
  destruct (Str.eqb k' k) eqn:E.
  - intros [= ->]. apply str_eqb_eq in E. subst. auto.
  - auto.
Qed.

End ObjFacts.

(** ** The trie *)

(** Induction on nodes, with the hypothesis for every child. *)
Lemma TrieNode_ind (P : TrieNode -> Prop) :
  (forall ch cs, Forall (fun kc => P (snd kc)) ch -> P (mkTrieNode ch cs)) ->
  forall node, P node.
Proof.
  intros H.
  exact (fix F (node : TrieNode) : P node :=
           match node with
           | mkTrieNode ch cs =>
               H ch cs
                 ((fix G (l : list (Str.t * TrieNode))
                     : Forall (fun kc => P (snd kc)) l :=
                     match l with
                     | [] => Forall_nil _
                     | kc :: l' => Forall_cons kc (F (snd kc)) (G l')
                     end) ch)
           end).
Qed.

Lemma fold_left_concat (A B : Type) (g : B -> list A) (l : list B)
      (acc : list A) :
  fold_left (fun r x => r ++ g x) l acc = acc ++ flat_map g l.
Proof.
  revert acc; induction l as [|x l IH]; intros acc; simpl.
  - symmetry. apply app_nil_r.
  - rewrite IH, <- app_assoc. reflexivity.
Qed.

(** [collectAll] yields the node's own entries followed by those of its
    children, child by child. *)
Lemma collectAll_eq (ch : Obj.t TrieNode) (cs : list Entry) :
  collectAll (mkTrieNode ch cs) =
  cs ++ flat_map (fun kc => collectAll (snd kc)) ch.
Proof.
  simpl. apply (fold_left_concat (fun kc => collectAll (snd kc))).
Qed.

Lemma collectAll_node (node : TrieNode) :
  collectAll node =
  characters node ++ flat_map (fun kc => collectAll (snd kc)) (children node).
Proof. destruct node. apply collectAll_eq. Qed.

Lemma collectAll_new : collectAll newTrieNode = [].
Proof. reflexivity. Qed.

(** Inserting below a node adds exactly the new entry to what
    [collectAll] yields from it. *)
Lemma collectAll_insert_from (chars : list Str.t) (e : Entry) :
  forall node,
    Permutation (collectAll (insert_from chars e node)) (e :: collectAll node).
Proof.
  induction chars as [|c rest IH]; intros node; cbn [insert_from].
  - rewrite collectAll_eq, (collectAll_node node), <- app_assoc.
    cbn [app]. symmetry. apply Permutation_middle.
  - rewrite collectAll_eq, (collectAll_node node).
    set (child := match Obj.get (children node) c with
                  | Some n => n | None => newTrieNode end).
    specialize (IH child).
    destruct (set_spec (children node) c (insert_from rest e child))
      as [(G & l1 & l2 & Ho & ->)|(old & l1 & l2 & G & Ho & -> & _)];
      subst child; rewrite G in IH |- *;
      rewrite Ho, !flat_map_app; cbn [flat_map snd]; rewrite IH.
    + rewrite collectAll_new. cbn [app].
      rewrite <- !Permutation_middle. reflexivity.
    + cbn [app]. rewrite <- !Permutation_middle. reflexivity.
Qed.

Lemma collectAll_insert (c : Str.t) (d : CharData) (t : Trie) :
  c <> [] ->
  Permutation (collectAll (root (insert c d t)))
              (mkEntry d c :: collectAll (root t)).
Proof.
  intros Hc. unfold insert.
  destruct c; [congruence|]. simpl negb. cbv iota.
  apply collectAll_insert_from.
Qed.

Lemma insert_empty (d : CharData) (t : Trie) : insert [] d t = t.
Proof. reflexivity. Qed.

Lemma walk_new (chars : list Str.t) (n : TrieNode) :
  walk chars newTrieNode = Some n -> n = newTrieNode.
Proof. destruct chars; simpl; congruence. Qed.

(** After an insertion along [chars], the walk along [chars] ends at the
    node it ended at before (a new node if there was none), with the entry
    appended to its [characters]. *)
Lemma walk_insert_from (chars : list Str.t) (e : Entry) :
  forall node,
    walk chars (insert_from chars e node) =
    Some (insert_from [] e
            (match walk chars node with
             | Some n => n
             | None => newTrieNode
             end)).
Proof.
  induction chars as [|c rest IH]; intros node; simpl; [reflexivity|].
  rewrite get_set_same, IH.
  destruct (Obj.get (children node) c) as [child|]; [reflexivity|].
  destruct (walk rest newTrieNode) as [n|] eqn:W; [|reflexivity].
  apply walk_new in W. subst. reflexivity.
Qed.

(** The entries below a node reached by a walk are entries of the node
    the walk started from. *)
Lemma walk_incl (chars : list Str.t) :
  forall node n,
    walk chars node = Some n -> incl (collectAll n) (collectAll node).
Proof.
  induction chars as [|c rest IH]; intros node n; simpl.
  - intros [= ->]. apply incl_refl.
  - destruct (Obj.get (children node) c) as [child|] eqn:G; [|discriminate].
    intros W e He. apply (IH _ _ W) in He.
    rewrite (collectAll_node node). apply in_or_app. right.
    apply in_flat_map. exists (c, child). split; [|exact He].
    apply get_in, G.
Qed.

Lemma search_incl (t : Trie) (p : Str.t) :
  incl (search t p) (collectAll (root t)).
Proof.
  unfold search. destruct (walk (Str.chars_of p) (root t)) eqn:W.
  - eapply walk_incl, W.
  - intros e [].
Qed.

Lemma length_flat_map (A B : Type) (f : A -> list B) (l : list A) :
  length (flat_map f l) = list_sum (map (fun x => length (f x)) l).
Proof.
  induction l as [|x l IH]; simpl; [reflexivity|].
  rewrite length_app, IH. reflexivity.
Qed.

(** The sum of the lengths of the [characters] arrays is the number of
    entries [collectAll] yields. *)
Lemma total_records_collectAll (node : TrieNode) :
  total_records node = length (collectAll node).
Proof.
  induction node as [ch cs IH] using TrieNode_ind.
  rewrite collectAll_eq, length_app, length_flat_map. simpl.
  f_equal. f_equal.
  induction IH as [|kc l Hkc _ IHl]; simpl; [reflexivity|].
  rewrite Hkc, IHl. reflexivity.
Qed.

(** ** The structural invariant *)

Lemma keyed_new (path : list Str.t) : keyed_by_path path newTrieNode.
Proof. constructor; constructor. Qed.

Lemma keyed_inv (path : list Str.t) (node : TrieNode) :
  keyed_by_path path node ->
  Forall (fun e => Str.chars_of (code e) = path) (characters node)
  /\ Forall (fun kc => keyed_by_path (path ++ [fst kc]) (snd kc))
            (children node).
Proof. intros H. inversion H; subst. simpl. auto. Qed.

Lemma keyed_child (path : list Str.t) (node child : TrieNode) (c : Str.t) :
  keyed_by_path path node ->
  Obj.get (children node) c = Some child ->
  keyed_by_path (path ++ [c]) child.
Proof.
  intros H G. apply keyed_inv in H. destruct H as [_ H].
  rewrite Forall_forall in H. apply get_in in G. apply (H _ G).
Qed.

Lemma keyed_insert_from (chars : list Str.t) (e : Entry) :
  forall path node,
    keyed_by_path path node ->
    Str.chars_of (code e) = path ++ chars ->
    keyed_by_path path (insert_from chars e node).
Proof.
  induction chars as [|c rest IH]; intros path node K He; cbn [insert_from];
    destruct (keyed_inv K) as [Kcs Kch].
  - constructor; [|exact Kch].
    apply Forall_app. split; [exact Kcs|].
    constructor; [|constructor]. rewrite He. apply app_nil_r.
  - constructor; [exact Kcs|].
    set (child := match Obj.get (children node) c with
                  | Some n => n | None => newTrieNode end).
    assert (Kchild : keyed_by_path (path ++ [c]) (insert_from rest e child)).
    { apply IH.
      - subst child. destruct (Obj.get (children node) c) eqn:G.
        + eapply keyed_child; eauto.
        + apply keyed_new.
      - rewrite He, <- app_assoc. reflexivity. }
    destruct (set_spec (children node) c (insert_from rest e child))
      as [(_ & l1 & l2 & Ho & ->)|(old & l1 & l2 & _ & Ho & -> & _)];
      rewrite Ho in Kch; apply Forall_app in Kch; destruct Kch as [K1 K2];
      apply Forall_app; split; auto.
    inversion K2; subst. constructor; auto.
Qed.

Lemma keyed_walk (chars : list Str.t) :
  forall path node n,
    keyed_by_path path node -> walk chars node = Some n ->
    keyed_by_path (path ++ chars) n.
Proof.
  induction chars as [|c rest IH]; intros path node n K; simpl.
  - intros [= <-]. rewrite app_nil_r. exact K.
  - destruct (Obj.get (children node) c) as [child|] eqn:G; [|discriminate].
    intros W. replace (path ++ c :: rest) with ((path ++ [c]) ++ rest)
      by (rewrite <- app_assoc; reflexivity).
    eapply IH; [|exact W]. eapply keyed_child; eauto.
Qed.

(** Below a node reached along [path], every code reads [path] first. *)
Lemma keyed_collectAll (node : TrieNode) :
  forall path e,
    keyed_by_path path node -> In e (collectAll node) ->
    exists more, Str.chars_of (code e) = path ++ more.
Proof.
  induction node as [ch cs IH] using TrieNode_ind; intros path e K.
  destruct (keyed_inv K) as [Kcs Kch]. simpl in Kcs, Kch.
  rewrite collectAll_eq, in_app_iff, in_flat_map.
  intros [He|([k child] & Hin & He)].
  - exists []. rewrite app_nil_r. rewrite Forall_forall in Kcs. auto.
  - rewrite Forall_forall in IH, Kch.
    destruct (IH _ Hin (path ++ [k]) e (Kch _ Hin) He) as [more Hm].
    exists (k :: more). rewrite Hm, <- app_assoc. reflexivity.
Qed.

Lemma keyed_insert (c : Str.t) (d : CharData) (t : Trie) :
  keyed_by_path [] (root t) -> keyed_by_path [] (root (insert c d t)).
Proof.
  intros K. unfold insert. destruct (Str.nonempty c); simpl; [|exact K].
  apply keyed_insert_from; [exact K | reflexivity].
Qed.

Lemma keyed_fold (ops : list (Str.t * CharData)) :
  forall t, keyed_by_path [] (root t) ->
  keyed_by_path []
    (root (fold_left (fun t op => insert (fst op) (snd op) t) ops t)).
Proof.
  induction ops as [|op ops IH]; intros t K; simpl; [exact K|].
  apply IH, keyed_insert, K.
Qed.

(** Every entry a search yields has a code that starts with the prefix. *)
Lemma keyed_search (t : Trie) (p : Str.t) (e : Entry) :
  keyed_by_path [] (root t) -> In e (search t p) -> starts_with p (code e).
Proof.
  intros K. unfold search.
  destruct (walk (Str.chars_of p) (root t)) as [n|] eqn:W; [|intros []].
  intros He. apply (keyed_walk _ K) in W. simpl in W.
  destruct (@keyed_collectAll n _ e W He) as [more Hm].
  exists (concat more).
  rewrite <- (concat_chars_of (code e)), Hm, concat_app, concat_chars_of.
  reflexivity.
Qed.

(** ** Sorting *)

Lemma In_firstn (A : Type) (n : nat) (l : list A) (x : A) :
  In x (firstn n l) -> In x l.
Proof.
  intros H. rewrite <- (firstn_skipn n l). apply in_or_app. left. exact H.
Qed.

Section SortFacts.
Variable A : Type.
Variable compareFn : A -> A -> Z.

Lemma insert_sorted_perm (x : A) (l : list A) :
  Permutation (Arr.insert_sorted compareFn x l) (x :: l).
Proof.
  induction l as [|y l IH]; simpl; [reflexivity|].
  destruct (compareFn x y <=? 0)%Z; [reflexivity|].
  rewrite IH. apply perm_swap.
Qed.

Lemma sort_perm (l : list A) : Permutation (Arr.sort compareFn l) l.
Proof.
  induction l as [|x l IH]; simpl; [reflexivity|].
  rewrite insert_sorted_perm. constructor. exact IH.
Qed.

(** The comparator decides, on the elements satisfying [D], a total
    preorder [R]. *)
Variable D : A -> Prop.
Variable R : A -> A -> Prop.
Hypothesis compare_R :
  forall a b, D a -> D b -> ((compareFn a b <=? 0)%Z = true <-> R a b).
Hypothesis R_total : forall a b, R a b \/ R b a.
Hypothesis R_trans : forall a b c, R a b -> R b c -> R a c.

Lemma insert_sorted_sorted (x : A) (l : list A) :
  D x -> Forall D l -> StronglySorted R l ->
  StronglySorted R (Arr.insert_sorted compareFn x l).
Proof.
  intros Dx. induction l as [|y l IH]; intros Dl Sl; simpl.
  - constructor; constructor.
  - inversion Dl as [|? ? Dy Dl']; subst.
    inversion Sl as [|? ? Sl' Hy]; subst.
    destruct (compareFn x y <=? 0)%Z eqn:E.
    + apply compare_R in E; auto.
      constructor; [exact Sl|]. constructor; [exact E|].
      eapply Forall_impl; [|exact Hy]. intros z. apply R_trans, E.
    + constructor; [apply IH; assumption|].
      apply (Permutation_Forall (Permutation_sym (insert_sorted_perm x l))).
      constructor; [|exact Hy].
      destruct (R_total x y) as [Hxy|Hyx]; [|exact Hyx].
      apply compare_R in Hxy; auto. congruence.
Qed.

Lemma sort_sorted (l : list A) :
  Forall D l -> StronglySorted R (Arr.sort compareFn l).
Proof.
  induction l as [|x l IH]; intros Dl; simpl; [constructor|].
  inversion Dl; subst.
  apply insert_sorted_sorted; auto.
  apply (Permutation_Forall (Permutation_sym (sort_perm l))). assumption.
Qed.

Lemma StronglySorted_firstn (n : nat) (l : list A) :
  StronglySorted R l -> StronglySorted R (firstn n l).
Proof.
  revert l; induction n as [|n IH]; intros [|x l] S; simpl;
    try constructor.
  - inversion S; subst. auto.
  - inversion S as [|? ? _ Hx]; subst.
    rewrite Forall_forall in Hx |- *. intros z Hz.
    apply Hx. eapply In_firstn, Hz.
Qed.

Lemma StronglySorted_nth (l : list A) :
  StronglySorted R l ->
  forall i j a b, i < j -> nth_error l i = Some a -> nth_error l j = Some b ->
  R a b.
Proof.
  induction 1 as [|x l S IH Hx]; intros i j a b Hij Ha Hb.
  - destruct i; discriminate.
  - destruct j as [|j]; [lia|]. simpl in Hb.
    destruct i as [|i]; simpl in Ha.
    + injection Ha as <-. rewrite Forall_forall in Hx.
      apply Hx. eapply nth_error_In, Hb.
    + apply (IH i j); auto. lia.
Qed.

End SortFacts.

Lemma slice_0 (A : Type) (n : nat) (l : list A) :
  Arr.slice 0 n l = firstn n l.
Proof. unfold Arr.slice. rewrite Nat.sub_0_r. reflexivity. Qed.

(** ** The order of the results *)

(** Case analysis on whether the code of [a] is the query [q]. *)
Ltac exact_or_not a q E :=
  destruct (Str.eqb (code a) q) eqn:E;
  [apply str_eqb_eq in E | apply str_eqb_neq in E].

Lemma code_point_compare_total (a b : Str.t) :
  Str.code_point_compare a b <> Gt \/ Str.code_point_compare b a <> Gt.
Proof.
  unfold Str.code_point_compare.
  rewrite (lex_compare_antisym (Str.code_points a) (Str.code_points b)).
  destruct (Str.lex_compare (Str.code_points a) (Str.code_points b)); simpl;
    [left|left|right]; congruence.
Qed.

Lemma in_result_order_total (q : Str.t) (a b : Entry) :
  in_result_order q a b \/ in_result_order q b a.
Proof.
  unfold in_result_order.
  exact_or_not a q Ea; exact_or_not b q Eb.
  - destruct (code_point_compare_total (code a) (code b)); [left|right];
      tauto.
  - left. tauto.
  - right. tauto.
  - destruct (code_point_compare_total (code a) (code b)); [left|right];
      tauto.
Qed.

Lemma in_result_order_trans (q : Str.t) (a b c : Entry) :
  in_result_order q a b -> in_result_order q b c -> in_result_order q a c.
Proof.
  unfold in_result_order, Str.code_point_compare.
  intros [H1 H2] [H3 H4]. split; [tauto|]. intros Hac.
  exact_or_not a q Ea.
  - assert (Ec : code c = q) by tauto.
    rewrite Ea, Ec, lex_compare_refl. congruence.
  - assert (Eb : code b <> q) by tauto.
    assert (Ec : code c <> q) by tauto.
    eapply lex_compare_trans; [apply H2 | apply H4]; tauto.
Qed.

Section CompareFacts.
Variable localeCompare : Str.t -> Str.t -> Z.
Hypothesis collation : collates_digits localeCompare.

(** On entries with digit codes, the comparator of the search effect puts
    [a] before or level with [b] exactly when the result order does. *)
Lemma compare_matches_order (q : Str.t) (a b : Entry) :
  all_digits (code a) -> all_digits (code b) ->
  ((compare_matches localeCompare q a b <=? 0)%Z = true
   <-> in_result_order q a b).
Proof.
  intros Da Db. unfold compare_matches, in_result_order.
  pose proof (collation Da Db) as Hs.
  assert (Hsame : (localeCompare (code a) (code b) <=? 0)%Z = true
                  <-> Str.code_point_compare (code a) (code b) <> Gt).
  { rewrite Z.leb_le.
    destruct (Str.code_point_compare (code a) (code b)); simpl in Hs;
      split; try congruence; lia. }
  destruct (Str.eqb (code a) q) eqn:Ea, (Str.eqb (code b) q) eqn:Eb; simpl;
    [apply str_eqb_eq in Ea, Eb
    |apply str_eqb_eq in Ea; apply str_eqb_neq in Eb
    |apply str_eqb_neq in Ea; apply str_eqb_eq in Eb
    |apply str_eqb_neq in Ea, Eb];
    rewrite ?Hsame; try tauto.
  split; [discriminate | tauto].
Qed.

End CompareFacts.

Lemma ordinal_compare_collates : collates_digits ordinal_compare.
Proof.
  intros a b _ _. unfold ordinal_compare.
  destruct (Str.code_point_compare a b); reflexivity.
Qed.

(** ** Column detection *)

Lemma scan_columns_range (cols : list Str.t) :
  forall j0, (0 <= j0)%Z ->
  scan_columns cols j0 = (-1)%Z \/ (j0 <= scan_columns cols j0)%Z.
Proof.
  induction cols as [|c rest IH]; intros j0 H0; simpl; [auto|].
  destruct (Str.test_d45 c); [right; lia|].
  destruct (IH (j0 + 1)%Z) as [H|H]; [lia | auto | right; lia].
Qed.

Lemma scan_columns_none (cols : list Str.t) :
  forall j0, (0 <= j0)%Z ->
  (scan_columns cols j0 = (-1)%Z <-> forall c, In c cols -> ~ is_code45 c).
Proof.
  induction cols as [|c rest IH]; intros j0 H0; simpl.
  - split; [intros _ c [] | reflexivity].
  - destruct (Str.test_d45 c) eqn:T.
    + apply test_d45_spec in T. split; [lia|].
      intros H. exfalso. apply (H c); auto.
    + rewrite IH by lia. split.
      * intros H c' [<-|Hc']; [|auto].
        rewrite <- test_d45_spec. congruence.
      * intros H c' Hc'. apply H. auto.
Qed.

Lemma first_code_column_cons (c : Str.t) (rest : list Str.t) (k : nat) :
  ~ is_code45 c ->
  (first_code_column (c :: rest) (S k) <-> first_code_column rest k).
Proof.
  intros Hc. unfold first_code_column. simpl. split; intros [H1 H2].
  - split; [exact H1|]. intros j' c' Hj. apply (H2 (S j') c'). lia.
  - split; [exact H1|]. intros [|j'] c' Hj; simpl.
    + intros [= <-]. exact Hc.
    + apply H2. lia.
Qed.

Lemma scan_columns_some (cols : list Str.t) :
  forall j0 k, (0 <= j0)%Z ->
  (scan_columns cols j0 = (j0 + Z.of_nat k)%Z <-> first_code_column cols k).
Proof.
  induction cols as [|c rest IH]; intros j0 k H0; simpl.
  - split; [lia|]. intros [(c & Hc & _) _]. destruct k; discriminate.
  - destruct (Str.test_d45 c) eqn:T.
    + apply test_d45_spec in T. split.
      * intros H. assert (k = 0) as -> by lia.
        split; [exists c; auto|]. intros j' c' Hj. lia.
      * intros [_ H]. destruct k as [|k]; [lia|].
        exfalso. apply (H 0 c); [lia | reflexivity | exact T].
    + assert (Hc : ~ is_code45 c) by (rewrite <- test_d45_spec; congruence).
      destruct k as [|k].
      * split.
        -- intros H. destruct (@scan_columns_range rest (j0 + 1)%Z); lia.
        -- intros [(c' & [= <-] & Hc') _]. contradiction.
      * rewrite first_code_column_cons by exact Hc.
        rewrite <- (IH (j0 + 1)%Z k) by lia.
        split; intros ->; lia.
Qed.

Lemma scan_lines_range (sample : list Str.t) :
  scan_lines sample = (-1)%Z \/ (0 <= scan_lines sample)%Z.
Proof.
  induction sample as [|line rest IH]; simpl; [auto|].
  destruct (length (Str.split pipe line) <? 5); [exact IH|].
  destruct (scan_columns (Str.split pipe line) 0 =? -1)%Z eqn:E; [exact IH|].
  apply Z.eqb_neq in E.
  destruct (@scan_columns_range (Str.split pipe line) 0%Z); [lia|tauto|auto].
Qed.

(** What one sampled line contributes to the detection. *)
Lemma scan_line_cases (line : Str.t) :
  (no_code_column line
   /\ ((length (Str.split pipe line) <? 5) = true
       \/ scan_columns (Str.split pipe line) 0 = (-1)%Z))
  \/ (exists j, 5 <= length (Str.split pipe line)
                /\ (length (Str.split pipe line) <? 5) = false
                /\ scan_columns (Str.split pipe line) 0 = Z.of_nat j
                /\ first_code_column (Str.split pipe line) j).
Proof.
  destruct (length (Str.split pipe line) <? 5) eqn:L.
  - left. apply Nat.ltb_lt in L. unfold no_code_column. auto.
  - pose proof L as Lb. apply Nat.ltb_ge in L.
    destruct (@scan_columns_range (Str.split pipe line) 0%Z) as [H|H]; [lia| |].
    + left. split; [|auto]. right.
      apply (@scan_columns_none (Str.split pipe line) 0%Z); [lia|exact H].
    + right. exists (Z.to_nat (scan_columns (Str.split pipe line) 0)).
      rewrite Z2Nat.id by exact H.
      split; [exact L|]. split; [reflexivity|]. split; [reflexivity|].
      apply (@scan_columns_some (Str.split pipe line) 0%Z); lia.
Qed.

Lemma first_code_column_not_none (line : Str.t) (j : nat) :
  5 <= length (Str.split pipe line) ->
  first_code_column (Str.split pipe line) j -> ~ no_code_column line.
Proof.
  intros L [(c & Hc & H45) _] [H|H]; [lia|].
  apply (H c); [eapply nth_error_In, Hc | exact H45].
Qed.

Lemma first_code_column_unique (cols : list Str.t) (j j' : nat) :
  first_code_column cols j -> first_code_column cols j' -> j = j'.
Proof.
  intros [(c & Hc & H45) Hmin] [(c' & Hc' & H45') Hmin'].
  destruct (Nat.lt_trichotomy j j') as [H|[H|H]]; [|exact H|].
  - exfalso. apply (Hmin' j c H Hc H45).
  - exfalso. apply (Hmin j' c' H Hc' H45').
Qed.

Lemma scan_lines_none (sample : list Str.t) :
  scan_lines sample = (-1)%Z <->
  forall line, In line sample -> no_code_column line.
Proof.
  induction sample as [|line rest IH]; simpl.
  - split; [intros _ l [] | reflexivity].
  - destruct (scan_line_cases line) as [(Hn & Hs)|(j & L & Lb & Hj & Hf)].
    + assert (E : (if length (Str.split pipe line) <? 5 then scan_lines rest
                   else if (scan_columns (Str.split pipe line) 0 =? -1)%Z
                        then scan_lines rest
                        else scan_columns (Str.split pipe line) 0)
                  = scan_lines rest).
      { destruct Hs as [->| ->]; [reflexivity|].
        destruct (length (Str.split pipe line) <? 5); reflexivity. }
      rewrite E, IH. split.
      * intros H l [<-|Hl]; auto.
      * intros H l Hl. apply H. auto.
    + rewrite Lb, Hj.
      destruct (Z.eqb_spec (Z.of_nat j) (-1)); [lia|].
      split; [lia|]. intros H. exfalso.
      apply (first_code_column_not_none L Hf). apply H. auto.
Qed.

Lemma scan_lines_some (sample : list Str.t) (j : nat) :
  scan_lines sample = Z.of_nat j <->
  exists i line,
    nth_error sample i = Some line
    /\ 5 <= length (Str.split pipe line)
    /\ first_code_column (Str.split pipe line) j
    /\ (forall i' line', i' < i -> nth_error sample i' = Some line' ->
        no_code_column line').
Proof.
  induction sample as [|line rest IH]; simpl.
  - split; [lia|]. intros ([|i] & l & H & _); discriminate.
  - destruct (scan_line_cases line) as [(Hn & Hs)|(j1 & L & Lb & Hj & Hf)].
    + assert (E : (if length (Str.split pipe line) <? 5 then scan_lines rest
                   else if (scan_columns (Str.split pipe line) 0 =? -1)%Z
                        then scan_lines rest
                        else scan_columns (Str.split pipe line) 0)
                  = scan_lines rest).
      { destruct Hs as [->| ->]; [reflexivity|].
        destruct (length (Str.split pipe line) <? 5); reflexivity. }
      rewrite E, IH. split.
      * intros (i & l & Hi & Hl & Hf & Hbefore).
        exists (S i), l.
        split; [exact Hi|]. split; [exact Hl|]. split; [exact Hf|].
        intros [|i'] l' Hlt; simpl; [intros [= <-]; exact Hn|].
        apply Hbefore. lia.
      * intros ([|i] & l & Hi & Hl & Hf & Hbefore); simpl in Hi.
        -- injection Hi as <-. exfalso.
           apply (first_code_column_not_none Hl Hf Hn).
        -- exists i, l.
           split; [exact Hi|]. split; [exact Hl|]. split; [exact Hf|].
           intros i' l' Hlt Hi'. apply (Hbefore (S i') l'); [lia|exact Hi'].
    + rewrite Lb, Hj.
      destruct (Z.eqb_spec (Z.of_nat j1) (-1)); [lia|]. split.
      * intros H. apply Nat2Z.inj in H. subst j1.
        exists 0, line.
        split; [reflexivity|]. split; [exact L|]. split; [exact Hf|].
        intros i' l' Hlt. lia.
      * intros ([|i] & l & Hi & Hl & Hf' & Hbefore); simpl in Hi.
        -- injection Hi as <-. f_equal.
           apply (first_code_column_unique Hf Hf').
        -- exfalso. apply (first_code_column_not_none L Hf).
           apply (Hbefore 0 line); [lia|reflexivity].
Qed.

Lemma firstn_min_length (A : Type) (n : nat) (l : list A) :
  firstn (Nat.min (length l) n) l = firstn n l.
Proof.
  destruct (Nat.le_ge_cases n (length l)) as [H|H].
  - rewrite Nat.min_r by exact H. reflexivity.
  - rewrite Nat.min_l by exact H.
    rewrite firstn_all, firstn_all2 by exact H. reflexivity.
Qed.

Lemma detect_code_index_sample (lines : list Str.t) :
  detect_code_index lines = scan_lines (firstn 50 lines).
Proof. unfold detect_code_index. rewrite firstn_min_length. reflexivity. Qed.

Lemma nth_error_sample (lines : list Str.t) (i : nat) (line : Str.t) :
  nth_error (firstn 50 lines) i = Some line <->
  i < Nat.min (length lines) 50 /\ nth_error lines i = Some line.
Proof.
  rewrite nth_error_firstn.
  destruct (Nat.ltb_spec i 50) as [H|H].
  - split; [|tauto]. intros Hi. split; [|exact Hi].
    assert (i < length lines) by (apply nth_error_Some; congruence). lia.
  - split; [discriminate|]. lia.
Qed.

(** ** Row validation and the row loop *)

Lemma truthy_spec (v : option Str.t) :
  truthy v = true <-> exists c, v = Some c /\ c <> [].
Proof.
  destruct v as [s|]; simpl.
  - rewrite nonempty_spec. split.
    + intros H. exists s. auto.
    + intros (c & [= <-] & H). exact H.
  - split; [discriminate|]. intros (c & H & _). discriminate.
Qed.

Lemma or_default_nonempty (v : option Str.t) :
  Str.nonempty (or_default v []) = truthy v.
Proof.
  destruct v as [s|]; simpl; [|reflexivity].
  destruct (Str.nonempty s) eqn:E; [exact E | reflexivity].
Qed.

Lemma test_dplus_value_spec (v : option Str.t) :
  truthy v && test_dplus_value v = true <->
  exists c, v = Some c /\ is_numeral c.
Proof.
  destruct v as [s|]; simpl.
  - rewrite andb_true_iff, test_dplus_spec, nonempty_spec. split.
    + intros [_ H]. exists s. auto.
    + intros (c & [= <-] & H). split; [apply H | exact H].
  - split; [discriminate|]. intros (c & H & _). discriminate.
Qed.

(** The test of line 206, read as the conjunction it is. *)
Lemma accepts_spec (codeIndex : Z) (columns : list Str.t) :
  accepts codeIndex columns = true <->
  present columns 0
  /\ (exists c, at_index columns codeIndex = Some c /\ is_numeral c)
  /\ present columns 2
  /\ present columns 9.
Proof.
  unfold accepts, present.
  rewrite or_default_nonempty, <- !andb_assoc, andb_true_iff.
  rewrite (andb_assoc (truthy (at_index columns codeIndex))).
  rewrite andb_true_iff, test_dplus_value_spec, andb_true_iff.
  rewrite !truthy_spec. tauto.
Qed.

(** One iteration of the row loop either leaves the trie and the count as
    they are or inserts under a numeral and counts one more. *)
Lemma process_line_cases (codeIndex : Z) (acc : Trie * nat) (raw : Str.t) :
  process_line codeIndex acc raw = acc
  \/ exists c,
       is_numeral c
       /\ at_index (Str.split pipe (Str.trim raw)) codeIndex = Some c
       /\ process_line codeIndex acc raw =
          (insert c (row_data (Str.split pipe (Str.trim raw))) (fst acc),
           S (snd acc)).
Proof.
  unfold process_line.
  destruct (Str.nonempty (Str.trim raw)); simpl; [|auto].
  destruct (accepts codeIndex (Str.split pipe (Str.trim raw))) eqn:A; [|auto].
  right. apply accepts_spec in A. destruct A as (_ & (c & Hc & Hn) & _).
  exists c. rewrite Hc. auto.
Qed.

(** A property of the trie and the count that every accepted row keeps
    holds after the row loop. *)
Lemma ingest_invariant (P : Trie * nat -> Prop) :
  (forall t n c d, is_numeral c -> P (t, n) -> P (insert c d t, S n)) ->
  forall codeIndex lines acc,
    P acc -> P (ingest codeIndex lines acc).
Proof.
  intros Hstep codeIndex lines. unfold ingest.
  induction lines as [|raw lines IH]; intros acc Hacc; simpl; [exact Hacc|].
  apply IH.
  destruct (process_line_cases codeIndex acc raw) as [->|(c & Hn & _ & ->)];
    [exact Hacc|].
  apply Hstep; [exact Hn|]. destruct acc; exact Hacc.
Qed.

Lemma digit_codes_insert (c : Str.t) (d : CharData) (t : Trie) :
  is_numeral c -> digit_codes t -> digit_codes (insert c d t).
Proof.
  intros [Hne Hd] Ht. unfold digit_codes.
  apply (Permutation_Forall (Permutation_sym (collectAll_insert d t Hne))).
  constructor; [exact Hd | exact Ht].
Qed.

Lemma total_records_insert (c : Str.t) (d : CharData) (t : Trie) :
  c <> [] ->
  total_records (root (insert c d t)) = S (total_records (root t)).
Proof.
  intros Hne. rewrite !total_records_collectAll.
  apply (Permutation_length (collectAll_insert d t Hne)).
Qed.

Lemma sound_index_new : sound_index (newTrie, 0).
Proof.
  split; [constructor|]. split; [apply keyed_new | reflexivity].
Qed.

Lemma sound_index_ingest (codeIndex : Z) (lines : list Str.t) :
  sound_index (ingest codeIndex lines (newTrie, 0)).
Proof.
  apply ingest_invariant; [|apply sound_index_new].
  intros t n c d Hc (Hd & Hk & Hn). simpl in *.
  split; [apply digit_codes_insert; assumption|].
  split; [apply keyed_insert; assumption|].
  simpl. rewrite total_records_insert by apply Hc. congruence.
Qed.

Lemma build_index_cases (text : Str.t) :
  (detect_code_index (Str.split newline text) = (-1)%Z
   /\ build_index text = Throw detection_error)
  \/ (detect_code_index (Str.split newline text) <> (-1)%Z
      /\ build_index text =
         Normal (ingest (detect_code_index (Str.split newline text))
                        (Str.split newline text) (newTrie, 0))).
Proof.
  unfold build_index.
  destruct (Z.eqb_spec (detect_code_index (Str.split newline text)) (-1));
    auto.
Qed.

Lemma build_index_sound (text : Str.t) (t : Trie) (n : nat) :
  build_index text = Normal (t, n) -> sound_index (t, n).
Proof.
  destruct (build_index_cases text) as [[_ ->]|[_ ->]]; [discriminate|].
  intros [= <-]. apply sound_index_ingest.
Qed.

(** ** Searching after an insertion *)

Lemma search_node_at (index : Trie) (prefix : Str.t) :
  search index prefix = collectAll (node_at index prefix).
Proof.
  unfold search, node_at.
  destruct (walk (Str.chars_of prefix) (root index)); reflexivity.
Qed.

Lemma search_insert (c : Str.t) (d : CharData) (index : Trie) :
  c <> [] ->
  search (insert c d index) c =
  collectAll (insert_from [] (mkEntry d c) (node_at index c)).
Proof.
  intros Hc. unfold search, insert, node_at.
  destruct c; [congruence|]. simpl negb. cbv iota. cbn [root].
  rewrite walk_insert_from. reflexivity.
Qed.

Lemma node_at_insert (c : Str.t) (d : CharData) (index : Trie) :
  c <> [] ->
  node_at (insert c d index) c =
  insert_from [] (mkEntry d c) (node_at index c).
Proof.
  intros Hc. unfold insert, node_at.
  destruct c; [congruence|]. simpl negb. cbv iota. cbn [root].
  rewrite walk_insert_from. reflexivity.
Qed.

(** ** The reachable states *)

Section Reachability.
Variable localeCompare : Str.t -> Str.t -> Z.

Lemma state_invariant_initial : state_invariant initialState.
Proof. split; [discriminate | reflexivity]. Qed.

Lemma state_invariant_processCSV (text : Str.t) (st : AppState) :
  state_invariant st -> state_invariant (processCSV text st).
Proof.
  intros Inv. unfold processCSV.
  destruct (build_index text) as [[t n]|message] eqn:B.
  - destruct (build_index_sound text B) as (Hd & Hk & _).
    split; [|discriminate]. intros index [= <-]. auto.
  - exact Inv.
Qed.

Lemma state_invariant_searchEffect (st : AppState) :
  state_invariant st -> state_invariant (fst (searchEffect localeCompare st)).
Proof.
  intros Inv. unfold searchEffect.
  destruct (trie st) as [index|] eqn:T; [|exact Inv].
  destruct Inv as [Hi _].
  destruct (length (inputCode st) =? 0); simpl;
    (split; [exact Hi | intros H; simpl in H; congruence]).
Qed.

Lemma state_invariant_step (ev : Event) (st : AppState) :
  state_invariant st -> state_invariant (step localeCompare ev st).
Proof.
  intros Inv. destruct ev; simpl.
  - apply state_invariant_processCSV, Inv.
  - exact Inv.
  - exact Inv.
  - unfold handleKeyPress. destruct (length (inputCode st) <? 5); exact Inv.
  - exact Inv.
  - exact Inv.
  - apply state_invariant_searchEffect, Inv.
Qed.

Lemma reachable_invariant (st : AppState) :
  reachable localeCompare st -> state_invariant st.
Proof.
  induction 1 as [|st ev _ IH _].
  - apply state_invariant_initial.
  - apply state_invariant_step, IH.
Qed.

Lemma reachable_run (events : list Event) :
  Forall keypad_event events ->
  forall st, reachable localeCompare st ->
  reachable localeCompare (run localeCompare events st).
Proof.
  induction 1 as [|ev events Hev _ IH]; intros st Hst; simpl; [exact Hst|].
  apply IH. constructor; assumption.
Qed.

(** The ordered matches of a query on a sound index are in result
    order. *)
Lemma sorted_matches (index : Trie) (q : Str.t) :
  collates_digits localeCompare -> digit_codes index ->
  StronglySorted (in_result_order q)
    (Arr.sort (compare_matches localeCompare q) (search index q)).
Proof.
  intros Hc Hd.
  apply sort_sorted with (D := fun e => all_digits (code e)).
  - intros a b Da Db. apply compare_matches_order; assumption.
  - apply in_result_order_total.
  - apply in_result_order_trans.
  - unfold digit_codes in Hd. rewrite Forall_forall in Hd |- *.
    intros e He. apply Hd. apply (search_incl index q), He.
Qed.

(** What the search effect does when an index is published and the query
    is not empty. *)
Lemma searchEffect_query (st : AppState) (index : Trie) :
  trie st = Some index -> inputCode st <> [] ->
  searchEffect localeCompare st =
  (set_results
     (firstn 100 (Arr.sort (compare_matches localeCompare (inputCode st))
                           (search index (inputCode st)))) st,
   [inputCode st]).
Proof.
  intros T Q. unfold searchEffect. rewrite T.
  destruct (inputCode st) as [|c q]; [congruence|].
  simpl length. simpl Nat.eqb. cbv iota. rewrite slice_0. reflexivity.
Qed.

Lemma searchEffect_empty (st : AppState) (index : Trie) :
  trie st = Some index -> inputCode st = [] ->
  searchEffect localeCompare st = (set_results [] st, []).
Proof.
  intros T Q. unfold searchEffect. rewrite T, Q. reflexivity.
Qed.

End Reachability.

(* ------------------------------------------------------------------ *)
(** * The properties of the specification *)

(** ** C1 *)

(** C1, as stated, fails on [Trie.search]: on an index holding one entry
    under the code "1", [search("")] returns that entry, not an empty
    sequence.  The loop over the empty prefix does not run and
    [collectAll] is called on the root. *)
Lemma search_empty_prefix_returns_entries :
  search (insert (Str.lit "1") sample_data newTrie) [] =
  [mkEntry sample_data (Str.lit "1")]
  /\ search (insert (Str.lit "1") sample_data newTrie) [] <> [].
Proof. split; [reflexivity | discriminate]. Qed.

(** C1 (amended): for every published index, the search effect run with
    the empty query sets the result list to the empty sequence and passes
    nothing to [Trie.search]; [Trie.search] itself, given the empty
    prefix, returns every entry of the index. *)
Theorem empty_query_shows_no_results
        (localeCompare : Str.t -> Str.t -> Z) (st : AppState) (index : Trie) :
  trie st = Some index -> inputCode st = [] ->
  results (fst (searchEffect localeCompare st)) = []
  /\ snd (searchEffect localeCompare st) = []
  /\ fst (searchEffect localeCompare st) = set_results [] st
  /\ search index [] = collectAll (root index).
Proof.
  intros T Q. rewrite (searchEffect_empty localeCompare st T Q).
  repeat split.
Qed.

Lemma empty_query_shows_no_results_witness :
  results (fst (searchEffect ordinal_compare idle_state)) = []
  /\ snd (searchEffect ordinal_compare idle_state) = []
  /\ fst (searchEffect ordinal_compare idle_state) = set_results [] idle_state
  /\ search (fst (ingest 10 (Str.split newline sample_text) (newTrie, 0))) []
     = collectAll
         (root (fst (ingest 10 (Str.split newline sample_text) (newTrie, 0)))).
Proof.
  apply (@empty_query_shows_no_results ordinal_compare idle_state
           (fst (ingest 10 (Str.split newline sample_text) (newTrie, 0))));
    vm_compute; reflexivity.
Defined.

(** ** C2 *)

(** C2: in the result list the search effect presents, an entry whose code
    is the query comes before every entry whose code is not, and entries
    that are both exact or both not are in ascending code-point order of
    their codes.  The component is in any state it can reach; the host's
    [localeCompare] is assumed to order strings of ASCII digits as their
    code points do. *)
Theorem results_in_order
        (localeCompare : Str.t -> Str.t -> Z) (st : AppState)
        (i j : nat) (a b : Entry) :
  collates_digits localeCompare ->
  reachable localeCompare st ->
  i < j ->
  nth_error (results (fst (searchEffect localeCompare st))) i = Some a ->
  nth_error (results (fst (searchEffect localeCompare st))) j = Some b ->
  in_result_order (inputCode st) a b.
Proof.
  intros Hc Hr Hij Ha Hb.
  destruct (reachable_invariant Hr) as [Hi Hn].
  destruct (trie st) as [index|] eqn:T.
  - destruct (Str.nonempty (inputCode st)) eqn:Q.
    + apply nonempty_spec in Q.
      rewrite (searchEffect_query localeCompare st T Q) in Ha, Hb.
      cbn [fst results set_results] in Ha, Hb.
      destruct (Hi index eq_refl) as [Hd _].
      eapply StronglySorted_nth; [| exact Hij | exact Ha | exact Hb].
      apply StronglySorted_firstn, sorted_matches; assumption.
    + assert (Q' : inputCode st = [])
        by (destruct (inputCode st); [reflexivity | discriminate]).
      rewrite (searchEffect_empty localeCompare st T Q') in Ha.
      destruct i; discriminate.
  - unfold searchEffect in Ha. rewrite T in Ha. simpl in Ha.
    rewrite (Hn eq_refl) in Ha. destruct i; discriminate.
Qed.

Lemma ordering_state_reachable : reachable ordinal_compare ordering_state.
Proof.
  apply reachable_run; [|constructor].
  repeat constructor; simpl; lia.
Qed.

Lemma results_in_order_witness :
  in_result_order (Str.lit "123")
    (mkEntry (mkCharData (Some (Str.lit "C")) (Str.lit "third")
                         (Some (Str.lit "c")) (Some (Str.lit "p")))
             (Str.lit "123"))
    (mkEntry (mkCharData (Some (Str.lit "B")) (Str.lit "second")
                         (Some (Str.lit "b")) (Some (Str.lit "p")))
             (Str.lit "1234")).
Proof.
  apply (@results_in_order ordinal_compare ordering_state 0 1 _ _
           ordinal_compare_collates ordering_state_reachable);
    [lia | vm_compute; reflexivity | vm_compute; reflexivity].
Defined.

(** ** C3 *)

(** C3: the detection reads only the first [min(50, total)] lines; its
    result is the index [j] of the first 4-5 digit column of the first
    sampled line that has at least five columns and such a column; it is
    [-1] exactly when no sampled line has both, and then [processCSV]
    throws the detection error, which its [catch] reports while the
    published index stays as it was (the trie under construction is
    dropped). *)
Theorem column_detection (text : Str.t) (st : AppState) :
  let lines := Str.split newline text in
  (forall other,
      firstn 50 other = firstn 50 lines ->
      detect_code_index other = detect_code_index lines)
  /\ (forall j : nat,
         detect_code_index lines = Z.of_nat j <->
         exists i line,
           i < Nat.min (length lines) 50
           /\ nth_error lines i = Some line
           /\ 5 <= length (Str.split pipe line)
           /\ first_code_column (Str.split pipe line) j
           /\ (forall i' line', i' < i -> nth_error lines i' = Some line' ->
               no_code_column line'))
  /\ (detect_code_index lines = (-1)%Z <->
      forall i line,
        i < Nat.min (length lines) 50 -> nth_error lines i = Some line ->
        no_code_column line)
  /\ (detect_code_index lines = (-1)%Z \/ (0 <= detect_code_index lines)%Z)
  /\ (detect_code_index lines = (-1)%Z ->
      build_index text = Throw detection_error
      /\ processCSV text st = on_catch detection_error st
      /\ trie (processCSV text st) = trie st
      /\ error (processCSV text st) = Some detection_error).
Proof.
  intros lines. split; [|split; [|split; [|split]]].
  - intros other H. rewrite !detect_code_index_sample, H. reflexivity.
  - intros j. rewrite detect_code_index_sample, scan_lines_some. split.
    + intros (i & line & Hi & Hl & Hf & Hb).
      apply nth_error_sample in Hi. destruct Hi as [Hlt Hi].
      exists i, line. repeat (split; [assumption|]).
      intros i' line' Hlt' Hi'. apply (Hb i' line' Hlt').
      apply nth_error_sample. split; [lia | exact Hi'].
    + intros (i & line & Hlt & Hi & Hl & Hf & Hb).
      exists i, line. split; [apply nth_error_sample; auto|].
      repeat (split; [assumption|]).
      intros i' line' Hlt' Hi'. apply nth_error_sample in Hi'.
      apply (Hb i' line' Hlt'), Hi'.
  - rewrite detect_code_index_sample, scan_lines_none. split.
    + intros H i line Hlt Hi. apply H.
      apply (@nth_error_In _ _ i), nth_error_sample. auto.
    + intros H line Hin. apply In_nth_error in Hin. destruct Hin as [i Hi].
      apply nth_error_sample in Hi. apply (H i line); apply Hi.
  - rewrite detect_code_index_sample. apply scan_lines_range.
  - intros H. unfold processCSV.
    destruct (build_index_cases text) as [[_ B]|[N _]]; [|contradiction].
    rewrite B. repeat split.
Qed.

(** The sample row of the specification: ten columns, the last one the
    only 4-digit one; the detection returns its index. *)
Example detection_finds_last_column :
  detect_code_index
    (Str.split newline ([23383%N] ++ Str.lit "|abc|def|x|x|x|x|x|x|9999"))
  = 9%Z.
Proof. reflexivity. Qed.

(** A sample without a column of four or five digits fails. *)
Example detection_fails_without_code :
  build_index codeless_text = Throw detection_error.
Proof. reflexivity. Qed.

(** ** C4 *)

Lemma accepts_ignores_cantonese (codeIndex : Z) (cols cols' : list Str.t) :
  codeIndex <> 1%Z ->
  (forall i, i <> 1%Z -> at_index cols' i = at_index cols i) ->
  accepts codeIndex cols' = accepts codeIndex cols.
Proof.
  intros Hc H. unfold accepts.
  rewrite (H 0%Z), (H 2%Z), (H 9%Z), (H codeIndex) by lia. reflexivity.
Qed.

Lemma ingest_app (codeIndex : Z) (l1 l2 : list Str.t) (acc : Trie * nat) :
  ingest codeIndex (l1 ++ l2) acc =
  ingest codeIndex l2 (ingest codeIndex l1 acc).
Proof. apply fold_left_app. Qed.

(** C4: a non-blank line is accepted exactly when column 0 is present, the
    detected column is present and is a numeral of any length, column 2 is
    present and column 9 is present; column 1 plays no part (unless it is
    the detected column).  An accepted line inserts one entry under its
    code and adds one to the count; a rejected line leaves the trie and the
    count as they are, and the loop goes on as if the line were not in the
    input. *)
Theorem row_accepted_iff (codeIndex : Z) (raw : Str.t) :
  let columns := Str.split pipe (Str.trim raw) in
  Str.trim raw <> [] ->
  (accepts codeIndex columns = true <->
   present columns 0
   /\ (exists c, at_index columns codeIndex = Some c /\ is_numeral c)
   /\ present columns 2
   /\ present columns 9)
  /\ (forall cols',
         codeIndex <> 1%Z ->
         (forall i, i <> 1%Z -> at_index cols' i = at_index columns i) ->
         accepts codeIndex cols' = accepts codeIndex columns)
  /\ (accepts codeIndex columns = true ->
      exists c,
        at_index columns codeIndex = Some c
        /\ forall index count,
             process_line codeIndex (index, count) raw =
             (insert c (row_data columns) index, S count))
  /\ (accepts codeIndex columns = false ->
      (forall acc, process_line codeIndex acc raw = acc)
      /\ (forall before after acc,
             ingest codeIndex (before ++ raw :: after) acc =
             ingest codeIndex (before ++ after) acc)).
Proof.
  intros columns Hline. apply nonempty_spec in Hline.
  split; [apply accepts_spec|].
  split; [intros cols'; apply accepts_ignores_cantonese|].
  assert (Hstep : forall acc,
             process_line codeIndex acc raw =
             if accepts codeIndex columns
             then (insert_value (at_index columns codeIndex)
                                (row_data columns) (fst acc), S (snd acc))
             else acc).
  { intros acc. unfold process_line. rewrite Hline. reflexivity. }
  split.
  - intros A. pose proof A as A'. apply accepts_spec in A'.
    destruct A' as (_ & (c & Hc & _) & _).
    exists c. split; [exact Hc|]. intros index count.
    rewrite Hstep, A, Hc. reflexivity.
  - intros A.
    assert (Hskip : forall acc, process_line codeIndex acc raw = acc).
    { intros acc. rewrite Hstep, A. reflexivity. }
    split; [exact Hskip|]. intros before after acc.
    rewrite !ingest_app. unfold ingest at 1. simpl. rewrite Hskip.
    reflexivity.
Qed.

Lemma row_accepted_iff_witness :
  (accepts 10 (Str.split pipe (Str.trim sample_row)) = true <->
   present (Str.split pipe (Str.trim sample_row)) 0
   /\ (exists c, at_index (Str.split pipe (Str.trim sample_row)) 10 = Some c
                 /\ is_numeral c)
   /\ present (Str.split pipe (Str.trim sample_row)) 2
   /\ present (Str.split pipe (Str.trim sample_row)) 9)
  /\ process_line 10 (newTrie, 0) sample_row =
     (insert (Str.lit "5023") sample_data newTrie, 1).
Proof.
  assert (H : Str.trim sample_row <> []) by discriminate.
  split.
  - exact (proj1 (@row_accepted_iff 10 sample_row H)).
  - vm_compute. reflexivity.
Defined.

(** The row of the specification with its definition emptied is
    rejected. *)
Example row_without_definition_rejected :
  accepts 10 (Str.split pipe
                (Str.trim ([26412%N] ++ Str.lit "|bun2||3|4|5|6|7|8|ben3|5023")))
  = false.
Proof. reflexivity. Qed.

(** ** C5 *)

(** C5: after [insert(c, r)] with a non-empty code, a search for [c]
    yields the entry stored for [r] (its fields with the code [c]); two
    records inserted under the same code both appear in a search for that
    code, next to each other in insertion order, also when they are
    equal. *)
Theorem insert_then_search (c : Str.t) (r : CharData) (index : Trie) :
  c <> [] ->
  In (mkEntry r c) (search (insert c r index) c)
  /\ (forall r',
         exists l1 l2,
           search (insert c r' (insert c r index)) c =
           l1 ++ mkEntry r c :: mkEntry r' c :: l2)
  /\ search (insert c r (insert c r newTrie)) c = [mkEntry r c; mkEntry r c].
Proof.
  intros Hc. split; [|split].
  - rewrite search_insert by exact Hc. cbn [insert_from].
    rewrite collectAll_eq. apply in_or_app. left.
    apply in_or_app. right. left. reflexivity.
  - intros r'. rewrite search_insert, node_at_insert by exact Hc.
    cbn [insert_from children characters]. rewrite collectAll_eq.
    exists (characters (node_at index c)),
      (flat_map (fun kc => collectAll (snd kc)) (children (node_at index c))).
    rewrite <- !app_assoc. reflexivity.
  - rewrite search_insert, node_at_insert by exact Hc.
    unfold node_at, newTrie. cbn [root].
    destruct (walk (Str.chars_of c) newTrieNode) as [n|] eqn:W;
      [apply walk_new in W; subst n|]; reflexivity.
Qed.

Lemma insert_then_search_witness :
  In (mkEntry sample_data (Str.lit "5023"))
     (search (insert (Str.lit "5023") sample_data
                     (insert (Str.lit "50231") other_data newTrie))
             (Str.lit "5023"))
  /\ search (insert (Str.lit "5023") sample_data
               (insert (Str.lit "5023") sample_data newTrie))
            (Str.lit "5023")
     = [mkEntry sample_data (Str.lit "5023");
        mkEntry sample_data (Str.lit "5023")].
Proof.
  assert (H : Str.lit "5023" <> []) by discriminate.
  split.
  - exact (proj1 (@insert_then_search (Str.lit "5023") sample_data
                    (insert (Str.lit "50231") other_data newTrie) H)).
  - exact (proj2 (proj2 (@insert_then_search (Str.lit "5023") sample_data
                           newTrie H))).
Defined.

(** ** C6 *)

Lemma ingest_all_rejected (codeIndex : Z) (lines : list Str.t)
      (acc : Trie * nat) :
  (forall raw, In raw lines ->
     accepts codeIndex (Str.split pipe (Str.trim raw)) = false) ->
  ingest codeIndex lines acc = acc.
Proof.
  unfold ingest. revert acc.
  induction lines as [|raw lines IH]; intros acc H; simpl; [reflexivity|].
  assert (E : process_line codeIndex acc raw = acc).
  { unfold process_line. rewrite (H raw) by (left; reflexivity).
    destruct (negb (Str.nonempty (Str.trim raw))); reflexivity. }
  rewrite E. apply IH. intros r Hr. apply H. right. exact Hr.
Qed.

(** C6: when the detection finds a column, [processCSV] publishes the new
    index with the count of accepted rows, clears the loading flag, the
    error and the uploader flag, whatever the number of accepted rows; if
    no row is accepted, the published index is empty and the count is
    zero. *)
Theorem detection_success_reaches_ready (text : Str.t) (st : AppState) :
  let lines := Str.split newline text in
  let codeIndex := detect_code_index lines in
  codeIndex <> (-1)%Z ->
  processCSV text st =
  {| trie := Some (fst (ingest codeIndex lines (newTrie, 0)));
     inputCode := inputCode st;
     results := results st;
     loading := false;
     error := None;
     datasetSize := snd (ingest codeIndex lines (newTrie, 0));
     showUploader := false |}
  /\ ((forall raw, In raw lines ->
         accepts codeIndex (Str.split pipe (Str.trim raw)) = false) ->
      trie (processCSV text st) = Some newTrie
      /\ datasetSize (processCSV text st) = 0
      /\ error (processCSV text st) = None).
Proof.
  intros lines codeIndex Hd.
  assert (E : processCSV text st =
              publish (fst (ingest codeIndex lines (newTrie, 0)))
                      (snd (ingest codeIndex lines (newTrie, 0))) st).
  { unfold processCSV.
    destruct (build_index_cases text) as [[N _]|[_ ->]]; [contradiction|].
    fold lines. fold codeIndex.
    destruct (ingest codeIndex lines (newTrie, 0)); reflexivity. }
  split; [exact E|].
  intros Hrej. rewrite E, (ingest_all_rejected _ _ _ Hrej). repeat split.
Qed.

Lemma detection_success_reaches_ready_witness :
  processCSV rejected_text initialState =
  {| trie := Some newTrie; inputCode := []; results := []; loading := false;
     error := None; datasetSize := 0; showUploader := false |}.
Proof.
  assert (H : detect_code_index (Str.split newline rejected_text) <> (-1)%Z)
    by (vm_compute; discriminate).
  exact (proj1 (@detection_success_reaches_ready rejected_text initialState H)).
Defined.

(** ** C7 *)

(** C7: with an index published and a query typed, the search effect
    presents the first 100 entries of the ordered match list: exactly 100
    of them, position by position, when the list is longer, and the whole
    list otherwise.  The ordered list holds the matches, each as often as
    it was found, and in a reachable state (under a collation that orders
    digit strings by code points) it is in result order. *)
Theorem results_truncated_to_100
        (localeCompare : Str.t -> Str.t -> Z) (st : AppState) (index : Trie) :
  trie st = Some index -> inputCode st <> [] ->
  let ordered :=
    Arr.sort (compare_matches localeCompare (inputCode st))
             (search index (inputCode st)) in
  let shown := results (fst (searchEffect localeCompare st)) in
  shown = firstn 100 ordered
  /\ (100 < length ordered ->
      length shown = 100
      /\ forall i, i < 100 -> nth_error shown i = nth_error ordered i)
  /\ (length ordered <= 100 -> shown = ordered)
  /\ Permutation ordered (search index (inputCode st))
  /\ (collates_digits localeCompare -> reachable localeCompare st ->
      StronglySorted (in_result_order (inputCode st)) ordered).
Proof.
  intros T Q ordered shown.
  assert (E : shown = firstn 100 ordered).
  { unfold shown. rewrite (searchEffect_query localeCompare st T Q).
    reflexivity. }
  split; [exact E|]. split; [|split; [|split]].
  - intros Hlen. rewrite E. split.
    + rewrite length_firstn. lia.
    + intros i Hi. rewrite nth_error_firstn.
      apply Nat.ltb_lt in Hi. rewrite Hi. reflexivity.
  - intros Hlen. rewrite E. apply firstn_all2, Hlen.
  - apply sort_perm.
  - intros Hc Hr. destruct (reachable_invariant Hr) as [Hi _].
    destruct (Hi index T) as [Hd _].
    apply sorted_matches; assumption.
Qed.

Lemma results_truncated_to_100_witness :
  length (results (fst (searchEffect ordinal_compare crowded_state))) = 100.
Proof.
  assert (T : trie crowded_state =
              Some (fst (ingest 10 (Str.split newline crowded_text)
                                (newTrie, 0))))
    by (vm_compute; reflexivity).
  assert (Q : inputCode crowded_state <> [])
    by (vm_compute; discriminate).
  assert (L : 100 < length
                      (Arr.sort (compare_matches ordinal_compare
                                                 (inputCode crowded_state))
                                (search (fst (ingest 10
                                   (Str.split newline crowded_text)
                                   (newTrie, 0)))
                                   (inputCode crowded_state))))
    by (vm_compute; lia).
  exact (proj1 (proj1 (proj2 (@results_truncated_to_100 ordinal_compare
                                crowded_state _ T Q)) L)).
Defined.

(** ** C8 *)

Lemma inserted_keyed (ops : list (Str.t * CharData)) :
  keyed_by_path [] (root (inserted ops)).
Proof. apply keyed_fold. apply keyed_new. Qed.

(** C8: in an index built by [insert] calls alone, every entry a search
    for [p] returns has a code that starts with [p] (for every [p], the
    empty one included). *)
Theorem search_results_extend_prefix
        (ops : list (Str.t * CharData)) (p : Str.t) (e : Entry) :
  In e (search (inserted ops) p) -> starts_with p (code e).
Proof. apply keyed_search, inserted_keyed. Qed.

Lemma search_results_extend_prefix_witness :
  starts_with (Str.lit "502") (Str.lit "50231").
Proof.
  apply (@search_results_extend_prefix
           [(Str.lit "5023", sample_data); (Str.lit "50231", other_data);
            (Str.lit "6090", other_data)]
           (Str.lit "502") (mkEntry other_data (Str.lit "50231"))).
  vm_compute. right. left. reflexivity.
Defined.

(** ** C9 *)

(** C9: after a successful ingestion the published count is the number of
    entries stored in the published index, the sum of the lengths of the
    [characters] arrays of all its nodes. *)
Theorem count_equals_stored_records
        (text : Str.t) (st : AppState) (index : Trie) (count : nat) :
  build_index text = Normal (index, count) ->
  count = total_records (root index)
  /\ trie (processCSV text st) = Some index
  /\ datasetSize (processCSV text st) = total_records (root index).
Proof.
  intros B. destruct (build_index_sound text B) as (_ & _ & Hn).
  simpl in Hn. unfold processCSV. rewrite B. simpl. auto.
Qed.

Lemma count_equals_stored_records_witness :
  datasetSize (processCSV sample_text initialState) = 3
  /\ datasetSize (processCSV sample_text initialState) =
     total_records
       (root (fst (ingest 10 (Str.split newline sample_text) (newTrie, 0)))).
Proof.
  assert (B : build_index sample_text =
              Normal (fst (ingest 10 (Str.split newline sample_text)
                                  (newTrie, 0)), 3))
    by (vm_compute; reflexivity).
  split; [vm_compute; reflexivity|].
  exact (proj2 (proj2 (@count_equals_stored_records sample_text initialState
                         _ _ B))).
Defined.

(** Every accepted row adds one entry: the row loop counts what it
    inserts. *)
Lemma process_line_counts (codeIndex : Z) (acc : Trie * nat) (raw : Str.t) :
  snd acc = total_records (root (fst acc)) ->
  snd (process_line codeIndex acc raw) =
  total_records (root (fst (process_line codeIndex acc raw))).
Proof.
  intros H.
  destruct (process_line_cases codeIndex acc raw) as [->|(c & Hn & _ & ->)];
    [exact H|].
  simpl. rewrite total_records_insert by apply Hn. congruence.
Qed.

(** ** C10 *)

(** C10: when an ingestion run throws, whatever the error, the [catch]
    branch sets the error message, clears the loading flag and raises the
    uploader flag; the published index, the count, the query and the
    results stay as they were, so the search effect goes on answering from
    the index published before.  A failed column detection is such a run:
    it throws the detection error. *)
Theorem failed_ingestion_keeps_index
        (text : Str.t) (message : Str.t) (st : AppState) :
  build_index text = Throw message ->
  processCSV text st = on_catch message st
  /\ trie (processCSV text st) = trie st
  /\ datasetSize (processCSV text st) = datasetSize st
  /\ inputCode (processCSV text st) = inputCode st
  /\ results (processCSV text st) = results st
  /\ loading (processCSV text st) = false
  /\ showUploader (processCSV text st) = true
  /\ error (processCSV text st) <> None
  /\ (forall localeCompare,
         results (fst (searchEffect localeCompare (processCSV text st))) =
         results (fst (searchEffect localeCompare st))
         /\ snd (searchEffect localeCompare (processCSV text st)) =
            snd (searchEffect localeCompare st))
  /\ (forall thrown,
         trie (on_catch thrown st) = trie st
         /\ datasetSize (on_catch thrown st) = datasetSize st)
  /\ (detect_code_index (Str.split newline text) = (-1)%Z ->
      message = detection_error).
Proof.
  intros B. unfold processCSV. rewrite B.
  repeat (split; [reflexivity|]). split; [discriminate|].
  split; [|split].
  - intros localeCompare. unfold searchEffect. cbn [trie inputCode on_catch].
    destruct (trie st); [|split; reflexivity].
    destruct (length (inputCode st) =? 0); split; reflexivity.
  - intros thrown. split; reflexivity.
  - intros D. destruct (build_index_cases text) as [[_ B']|[N _]];
      [congruence | contradiction].
Qed.

Lemma failed_ingestion_keeps_index_witness :
  trie (processCSV codeless_text ordering_state) = trie ordering_state
  /\ datasetSize (processCSV codeless_text ordering_state) = 3
  /\ error (processCSV codeless_text ordering_state) = Some detection_error.
Proof.
  assert (B : build_index codeless_text = Throw detection_error)
    by (vm_compute; reflexivity).
  split; [|split; vm_compute; reflexivity].
  exact (proj1 (proj2 (@failed_ingestion_keeps_index codeless_text
                         detection_error ordering_state B))).
Defined.

(* ------------------------------------------------------------------ *)
(** * Further properties of the code *)

(** ** Insertion and search on any index *)

Lemma get_set_other (V : Type) (o : Obj.t V) (k k' : Str.t) (v : V) :
  k' <> k -> Obj.get (Obj.set o k v) k' = Obj.get o k'.
Proof.
  intros Hk.
  assert (E : Str.eqb k k' = false) by (apply str_eqb_neq; congruence).
  destruct (set_spec o k v) as [(_ & l1 & l2 & -> & ->)
                               |(old & l1 & l2 & _ & -> & -> & _)];
    rewrite !get_app; simpl; rewrite E; reflexivity.
Qed.

(** What [search] collects when its walk starts at [node]. *)
Lemma collect_new (q : list Str.t) :
  match walk q newTrieNode with Some n => collectAll n | None => [] end = [].
Proof. destruct q; reflexivity. Qed.

Lemma prefixb_spec (q l : list Str.t) :
  prefixb q l = true <-> exists more, l = q ++ more.
Proof.
  revert l; induction q as [|a q IH]; intros l; simpl.
  - split; [intros _; exists l; reflexivity | reflexivity].
  - destruct l as [|b l].
    + split; [discriminate | intros (more & H); discriminate].
    + rewrite andb_true_iff, str_eqb_eq, IH. split.
      * intros (-> & more & ->). exists more. reflexivity.
      * intros (more & H). injection H as -> ->. split; eauto.
Qed.

(** Inserting along [cs] adds the entry to what a walk along [q] collects
    exactly when [q] is an initial segment of [cs], and changes nothing
    else of it. *)
Lemma collect_insert_from (cs : list Str.t) (e : Entry) :
  forall q node,
    Permutation
      (match walk q (insert_from cs e node) with
       | Some n => collectAll n | None => [] end)
      ((if prefixb q cs then [e] else [])
       ++ match walk q node with Some n => collectAll n | None => [] end).
Proof.
  induction cs as [|c cs IH]; intros q node.
  - destruct q as [|a q]; cbn [prefixb app walk].
    + apply (collectAll_insert_from [] e node).
    + cbn [insert_from children]. reflexivity.
  - destruct q as [|a q]; cbn [prefixb app walk].
    + apply (collectAll_insert_from (c :: cs) e node).
    + cbn [insert_from children].
      destruct (Str.eqb a c) eqn:E.
      * apply str_eqb_eq in E. subst a. rewrite get_set_same. cbn [andb].
        specialize (IH q).
        destruct (Obj.get (children node) c) as [child|].
        -- apply IH.
        -- rewrite (IH newTrieNode), collect_new. reflexivity.
      * apply str_eqb_neq in E. rewrite get_set_other by exact E.
        reflexivity.
Qed.

Lemma leads_to_starts_with (p c : Str.t) :
  leads_to p c = true -> starts_with p c.
Proof.
  unfold leads_to. rewrite prefixb_spec. intros (more & H).
  exists (concat more).
  rewrite <- (concat_chars_of c), H, concat_app, concat_chars_of.
  reflexivity.
Qed.

Lemma chars_of_cons (c : N) (s : Str.t) :
  Str.is_high_surrogate c = false ->
  Str.chars_of (c :: s) = [c] :: Str.chars_of s.
Proof.
  intros H. destruct s as [|lo s]; [reflexivity|].
  change (Str.chars_of (c :: lo :: s)) with
    (if Str.is_high_surrogate c && Str.is_low_surrogate lo
     then [c; lo] :: Str.chars_of s
     else [c] :: Str.chars_of (lo :: s)).
  rewrite H. reflexivity.
Qed.

Lemma digit_not_high (c : N) :
  (48 <= c <= 57)%N -> Str.is_high_surrogate c = false.
Proof.
  intros H. unfold Str.is_high_surrogate. apply andb_false_iff. left.
  apply N.leb_gt. lia.
Qed.

Lemma chars_of_digits_app (p r : Str.t) :
  all_digits p ->
  Str.chars_of (p ++ r) = map (fun c => [c]) p ++ Str.chars_of r.
Proof.
  induction 1 as [|d p Hd _ IH]; simpl app; [reflexivity|].
  rewrite chars_of_cons by (apply digit_not_high, Hd).
  rewrite IH. reflexivity.
Qed.

(** For a query of ASCII digits, following the path of a code is the same
    as being a prefix of it. *)
Lemma leads_to_digits (p c : Str.t) :
  all_digits p -> (leads_to p c = true <-> starts_with p c).
Proof.
  intros Hp. split; [apply leads_to_starts_with|].
  intros (rest & ->). unfold leads_to. apply prefixb_spec.
  exists (Str.chars_of rest).
  rewrite (chars_of_digits_app rest Hp), (chars_of_digits Hp). reflexivity.
Qed.

Lemma search_insert_perm (c : Str.t) (d : CharData) (index : Trie)
      (p : Str.t) :
  c <> [] ->
  Permutation (search (insert c d index) p)
              ((if leads_to p c then [mkEntry d c] else [])
               ++ search index p).
Proof.
  intros Hc. unfold search, insert, leads_to.
  destruct c; [congruence|]. simpl negb. cbv iota. cbn [root].
  apply collect_insert_from.
Qed.

Lemma search_fold_insert (ops : list (Str.t * CharData)) (p : Str.t) :
  forall index,
    Permutation
      (search (fold_left (fun t op => insert (fst op) (snd op) t) ops index) p)
      (filter (fun e => leads_to p (code e)) (stored ops) ++ search index p).
Proof.
  induction ops as [|[c d] ops IH]; intros index; simpl fold_left.
  - reflexivity.
  - rewrite IH. unfold stored. cbn [filter fst snd].
    destruct (Str.nonempty c) eqn:Hc.
    + apply nonempty_spec in Hc.
      rewrite (search_insert_perm d index p Hc).
      cbn [map filter entry_of fst snd code].
      destruct (leads_to p c); cbn [app].
      * rewrite <- Permutation_middle. reflexivity.
      * reflexivity.
    + destruct c; [|discriminate]. reflexivity.
Qed.

Lemma search_new (p : Str.t) : search newTrie p = [].
Proof. unfold search, newTrie. cbn [root]. apply collect_new. Qed.

Lemma search_inserted_perm (ops : list (Str.t * CharData)) (p : Str.t) :
  Permutation (search (inserted ops) p)
              (filter (fun e => leads_to p (code e)) (stored ops)).
Proof.
  unfold inserted. rewrite search_fold_insert, search_new, app_nil_r.
  reflexivity.
Qed.

Lemma filter_none (A : Type) (f : A -> bool) (l : list A) :
  (forall x, In x l -> f x = false) -> filter f l = [].
Proof.
  induction l as [|x l IH]; intros H; simpl; [reflexivity|].
  rewrite (H x) by (left; reflexivity).
  apply IH. intros y Hy. apply H. right. exact Hy.
Qed.

(** X1: on any index, inserting a record under a non-empty code adds the
    stored entry to the result of exactly those searches whose prefix
    leads to the code, and leaves what every search found before in its
    result (each entry as often as before). *)
Theorem search_after_insert
        (c : Str.t) (d : CharData) (index : Trie) (p : Str.t) :
  c <> [] ->
  Permutation (search (insert c d index) p)
              ((if leads_to p c then [mkEntry d c] else [])
               ++ search index p)
  /\ (~ starts_with p c ->
      Permutation (search (insert c d index) p) (search index p)).
Proof.
  intros Hc. split; [apply search_insert_perm, Hc|].
  intros Hn. rewrite (search_insert_perm d index p Hc).
  destruct (leads_to p c) eqn:L; [|reflexivity].
  exfalso. apply Hn, leads_to_starts_with, L.
Qed.

Lemma search_after_insert_witness :
  Permutation
    (search (insert (Str.lit "6090") other_data
                    (insert (Str.lit "5023") sample_data newTrie))
            (Str.lit "50"))
    (search (insert (Str.lit "5023") sample_data newTrie) (Str.lit "50")).
Proof.
  assert (H : Str.lit "6090" <> []) by (vm_compute; discriminate).
  assert (L : leads_to (Str.lit "50") (Str.lit "6090") = false)
    by (vm_compute; reflexivity).
  pose proof (proj1 (@search_after_insert (Str.lit "6090") other_data
                       (insert (Str.lit "5023") sample_data newTrie)
                       (Str.lit "50") H)) as P.
  rewrite L in P. exact P.
Defined.

(** X2: the result of a search on an index built by [insert] calls alone
    holds exactly the stored entries whose code the prefix leads to, each
    as often as it was inserted; so a prefix that starts no inserted code
    finds nothing, and a prefix of ASCII digits finds an entry exactly
    when the entry was stored and its code starts with the prefix. *)
Theorem search_finds_exactly
        (ops : list (Str.t * CharData)) (p : Str.t) :
  Permutation (search (inserted ops) p)
              (filter (fun e => leads_to p (code e)) (stored ops))
  /\ ((forall op, In op ops -> ~ starts_with p (fst op)) ->
      search (inserted ops) p = [])
  /\ (all_digits p ->
      forall e, In e (search (inserted ops) p) <->
                In e (stored ops) /\ starts_with p (code e)).
Proof.
  pose proof (search_inserted_perm ops p) as P.
  split; [exact P|]. split.
  - intros Hn. apply Permutation_nil. symmetry. rewrite P.
    assert (E : filter (fun e => leads_to p (code e)) (stored ops) = []).
    { apply filter_none. intros e He. unfold stored in He. apply in_map_iff in He.
      destruct He as (op & <- & Hop). apply filter_In in Hop.
      destruct (leads_to p (code (entry_of op))) eqn:L; [|reflexivity].
      exfalso. apply (Hn op); [apply Hop|].
      apply leads_to_starts_with in L. exact L. }
    rewrite E. reflexivity.
  - intros Hp e. split.
    + intros He. apply (Permutation_in _ P) in He. apply filter_In in He.
      destruct He as [Hs L]. split; [exact Hs|].
      apply leads_to_digits; assumption.
    + intros [Hs L]. apply (Permutation_in _ (Permutation_sym P)).
      apply filter_In. split; [exact Hs|]. apply leads_to_digits; assumption.
Qed.

(** ** The row loop as a sequence of insertions *)

Lemma accepted_row_spec (codeIndex : Z) (raw : Str.t) (c : Str.t)
      (d : CharData) :
  accepted_row codeIndex raw = Some (c, d) ->
  Str.trim raw <> []
  /\ accepts codeIndex (Str.split pipe (Str.trim raw)) = true
  /\ at_index (Str.split pipe (Str.trim raw)) codeIndex = Some c
  /\ d = row_data (Str.split pipe (Str.trim raw))
  /\ is_numeral c.
Proof.
  unfold accepted_row.
  destruct (Str.nonempty (Str.trim raw)) eqn:Hn; simpl; [|discriminate].
  destruct (accepts codeIndex (Str.split pipe (Str.trim raw))) eqn:A;
    [|discriminate].
  destruct (at_index (Str.split pipe (Str.trim raw)) codeIndex) as [c'|] eqn:C;
    [|discriminate].
  intros [= <- <-]. apply nonempty_spec in Hn.
  split; [exact Hn|]. do 3 (split; [reflexivity|]).
  apply accepts_spec in A. destruct A as (_ & (c2 & Hc2 & Hnum) & _).
  rewrite C in Hc2. injection Hc2 as <-. exact Hnum.
Qed.

Lemma process_line_accepted (codeIndex : Z) (acc : Trie * nat) (raw : Str.t) :
  process_line codeIndex acc raw =
  match accepted_row codeIndex raw with
  | Some op => (insert (fst op) (snd op) (fst acc), S (snd acc))
  | None => acc
  end.
Proof.
  unfold process_line, accepted_row.
  destruct (negb (Str.nonempty (Str.trim raw))); [reflexivity|].
  destruct (accepts codeIndex (Str.split pipe (Str.trim raw))) eqn:A;
    [|reflexivity].
  apply accepts_spec in A. destruct A as (_ & (c & -> & _) & _).
  reflexivity.
Qed.

Lemma ingest_fold (codeIndex : Z) (lines : list Str.t) :
  forall acc,
    ingest codeIndex lines acc =
    (fold_left (fun t op => insert (fst op) (snd op) t)
               (accepted_rows codeIndex lines) (fst acc),
     snd acc + length (accepted_rows codeIndex lines)).
Proof.
  unfold ingest, accepted_rows.
  induction lines as [|raw lines IH]; intros [t n]; simpl.
  - rewrite Nat.add_0_r. reflexivity.
  - rewrite IH, process_line_accepted.
    destruct (accepted_row codeIndex raw) as [op|]; simpl.
    + rewrite Nat.add_succ_r. reflexivity.
    + reflexivity.
Qed.

Lemma accepted_rows_spec (codeIndex : Z) (lines : list Str.t)
      (op : Str.t * CharData) :
  In op (accepted_rows codeIndex lines) <->
  exists raw, In raw lines /\ accepted_row codeIndex raw = Some op.
Proof.
  unfold accepted_rows. rewrite in_flat_map. split.
  - intros (raw & Hr & Hop). exists raw. split; [exact Hr|].
    destruct (accepted_row codeIndex raw); simpl in Hop; [|contradiction].
    destruct Hop as [->|[]]. reflexivity.
  - intros (raw & Hr & E). exists raw. split; [exact Hr|].
    rewrite E. left. reflexivity.
Qed.

Lemma accepted_rows_length (codeIndex : Z) (lines : list Str.t) :
  length (accepted_rows codeIndex lines) <= length lines.
Proof.
  unfold accepted_rows.
  induction lines as [|raw lines IH]; simpl; [lia|].
  rewrite length_app.
  destruct (accepted_row codeIndex raw); simpl; lia.
Qed.

Lemma stored_accepted_rows (codeIndex : Z) (lines : list Str.t) :
  stored (accepted_rows codeIndex lines) =
  map entry_of (accepted_rows codeIndex lines).
Proof.
  unfold stored. f_equal.
  apply forallb_filter_id. apply forallb_forall.
  intros [c d] Hop. apply accepted_rows_spec in Hop.
  destruct Hop as (raw & _ & E). apply accepted_row_spec in E.
  apply nonempty_spec, E.
Qed.

Lemma accepted_row_valid (codeIndex : Z) (raw : Str.t)
      (op : Str.t * CharData) :
  accepted_row codeIndex raw = Some op -> valid_record (entry_of op).
Proof.
  destruct op as [c d]. intros E.
  destruct (accepted_row_spec _ _ E) as (_ & A & _ & -> & Hnum).
  unfold accepts in A. rewrite !andb_true_iff in A.
  destruct A as ((((Hchar & _) & _) & Hdef) & Hpin).
  unfold valid_record, entry_of. cbn [data code fst snd row_data char def pinyin].
  repeat split; try assumption; try apply Hnum.
  apply nonempty_spec, Hdef.
Qed.

Lemma build_index_rows (text : Str.t) (index : Trie) (count : nat) :
  build_index text = Normal (index, count) ->
  index = inserted (accepted_rows
                      (detect_code_index (Str.split newline text))
                      (Str.split newline text))
  /\ count = length (accepted_rows
                       (detect_code_index (Str.split newline text))
                       (Str.split newline text)).
Proof.
  destruct (build_index_cases text) as [[_ ->]|[_ ->]]; [discriminate|].
  rewrite ingest_fold. intros [= <- <-]. split; reflexivity.
Qed.

(** X3: after a successful ingestion the published index is the one the
    accepted rows build by [insert], in input order, and the count is
    their number, at most the number of lines.  A search on it returns
    exactly the entries of the accepted rows whose code the prefix leads
    to, each once per accepted row; for a prefix of ASCII digits these are
    the accepted rows whose code starts with the prefix. *)
Theorem index_answers_with_accepted_rows
        (text : Str.t) (index : Trie) (count : nat) :
  build_index text = Normal (index, count) ->
  let lines := Str.split newline text in
  let rows := accepted_rows (detect_code_index lines) lines in
  index = inserted rows
  /\ count = length rows
  /\ count <= length lines
  /\ (forall q,
         Permutation (search index q)
                     (filter (fun e => leads_to q (code e))
                             (map entry_of rows)))
  /\ (forall q e,
         all_digits q ->
         (In e (search index q) <->
          In e (map entry_of rows) /\ starts_with q (code e))).
Proof.
  intros B lines rows.
  destruct (build_index_rows text B) as [-> ->]. fold lines. fold rows.
  split; [reflexivity|]. split; [reflexivity|].
  split; [apply accepted_rows_length|].
  pose proof (stored_accepted_rows (detect_code_index lines) lines) as S.
  fold rows in S.
  split.
  - intros q. rewrite <- S. apply search_inserted_perm.
  - intros q e Hq. rewrite <- S.
    pose proof (search_inserted_perm rows q) as P. split.
    + intros He. apply (Permutation_in _ P) in He. apply filter_In in He.
      destruct He as [Hs L]. split; [exact Hs|].
      apply leads_to_digits; assumption.
    + intros [Hs L]. apply (Permutation_in _ (Permutation_sym P)).
      apply filter_In. split; [exact Hs|]. apply leads_to_digits; assumption.
Qed.

Lemma index_answers_with_accepted_rows_witness :
  Permutation
    (search (fst (ingest 10 (Str.split newline sample_text) (newTrie, 0)))
            (Str.lit "5023"))
    (filter (fun e => leads_to (Str.lit "5023") (code e))
            (map entry_of (accepted_rows
                             (detect_code_index (Str.split newline sample_text))
                             (Str.split newline sample_text)))).
Proof.
  assert (B : build_index sample_text =
              Normal (fst (ingest 10 (Str.split newline sample_text)
                                  (newTrie, 0)), 3))
    by (vm_compute; reflexivity).
  exact (proj1 (proj2 (proj2 (proj2
           (@index_answers_with_accepted_rows sample_text _ _ B))))
           (Str.lit "5023")).
Defined.

(** X4: a line with fewer than ten columns, or without a column at the
    detected index, is never accepted: the row loop leaves the trie and
    the count as they are. *)
Theorem short_rows_are_skipped
        (codeIndex : Z) (raw : Str.t) (acc : Trie * nat) :
  (length (Str.split pipe (Str.trim raw)) < 10
   \/ (codeIndex < 0)%Z
   \/ (Z.of_nat (length (Str.split pipe (Str.trim raw))) <= codeIndex)%Z) ->
  accepts codeIndex (Str.split pipe (Str.trim raw)) = false
  /\ process_line codeIndex acc raw = acc.
Proof.
  intros H.
  assert (A : accepts codeIndex (Str.split pipe (Str.trim raw)) = false).
  { destruct (accepts codeIndex (Str.split pipe (Str.trim raw))) eqn:A;
      [|reflexivity].
    exfalso. apply accepts_spec in A.
    destruct A as (_ & (c & Hc & _) & _ & (p & Hp & _)).
    unfold at_index in Hc, Hp.
    change (9 <? 0)%Z with false in Hp. cbv iota in Hp.
    change (Z.to_nat 9) with 9 in Hp.
    assert (9 < length (Str.split pipe (Str.trim raw)))
      by (apply nth_error_Some; congruence).
    destruct (codeIndex <? 0)%Z eqn:Z0; [discriminate|].
    apply Z.ltb_ge in Z0.
    assert (Z.to_nat codeIndex < length (Str.split pipe (Str.trim raw)))
      by (apply nth_error_Some; congruence).
    lia. }
  split; [exact A|].
  unfold process_line. rewrite A.
  destruct (negb (Str.nonempty (Str.trim raw))); reflexivity.
Qed.

Lemma short_rows_are_skipped_witness :
  process_line 3 (newTrie, 0) (Str.lit "A|a|def|1234|x") = (newTrie, 0).
Proof.
  apply (@short_rows_are_skipped 3 (Str.lit "A|a|def|1234|x") (newTrie, 0)).
  left. vm_compute. lia.
Defined.

(** ** What the reachable states hold *)

Lemma build_index_valid (text : Str.t) (index : Trie) (count : nat) :
  build_index text = Normal (index, count) ->
  Forall valid_record (collectAll (root index)).
Proof.
  intros B. destruct (build_index_rows text B) as [-> _].
  apply Forall_forall. intros e He.
  change (In e (search (inserted
                          (accepted_rows
                             (detect_code_index (Str.split newline text))
                             (Str.split newline text))) [])) in He.
  apply (Permutation_in _ (search_inserted_perm _ [])) in He.
  apply filter_In in He. destruct He as [He _].
  rewrite stored_accepted_rows in He. apply in_map_iff in He.
  destruct He as (op & <- & Hop). apply accepted_rows_spec in Hop.
  destruct Hop as (raw & _ & E). eapply accepted_row_valid, E.
Qed.

Lemma all_digits_removelast (s : Str.t) :
  all_digits s -> all_digits (removelast s).
Proof.
  unfold all_digits. rewrite !Forall_forall.
  intros H c Hc. apply H.
  destruct s as [|x s]; [contradiction|].
  rewrite (app_removelast_last 0%N (l := x :: s)) by discriminate.
  apply in_or_app. left. exact Hc.
Qed.

Lemma length_removelast (A : Type) (l : list A) :
  length (removelast l) <= length l.
Proof.
  induction l as [|x l IH]; simpl; [lia|].
  destruct l; simpl in *; lia.
Qed.

Section ReachableRecords.
Variable localeCompare : Str.t -> Str.t -> Z.

Lemma records_invariant_initial : records_invariant initialState.
Proof.
  split; [discriminate|]. simpl.
  repeat split; try constructor; lia.
Qed.

Lemma records_invariant_processCSV (text : Str.t) (st : AppState) :
  records_invariant st -> records_invariant (processCSV text st).
Proof.
  intros (Ht & Hr & Hl & Hq & Hd). unfold processCSV.
  destruct (build_index text) as [[t n]|message] eqn:B.
  - split; [|simpl; auto].
    intros index [= <-]. exists text, n. exact B.
  - split; [exact Ht | simpl; auto].
Qed.

Lemma records_invariant_searchEffect (st : AppState) :
  records_invariant st ->
  records_invariant (fst (searchEffect localeCompare st)).
Proof.
  intros Inv. unfold searchEffect.
  destruct (trie st) as [index|] eqn:T; [|exact Inv].
  pose proof Inv as (Ht & Hr & Hl & Hq & Hd).
  destruct (length (inputCode st) =? 0); cbn [fst].
  - split; [intros i Hi; apply Ht; exact Hi|].
    simpl. repeat split; auto. lia.
  - split; [intros i Hi; apply Ht; exact Hi|].
    cbn [results inputCode set_results]. rewrite slice_0.
    split; [|split; [rewrite length_firstn; lia | auto]].
    destruct (Ht index T) as (text & count & B).
    pose proof (build_index_valid text B) as Hv.
    rewrite Forall_forall in Hv |- *. intros e He.
    apply In_firstn in He.
    apply (Permutation_in _ (sort_perm _ _)) in He.
    apply Hv, (search_incl index (inputCode st)), He.
Qed.

Lemma records_invariant_step (ev : Event) (st : AppState) :
  keypad_event ev -> records_invariant st ->
  records_invariant (step localeCompare ev st).
Proof.
  intros Hev Inv. pose proof Inv as (Ht & Hr & Hl & Hq & Hd).
  destruct ev; simpl in *.
  - apply records_invariant_processCSV, Inv.
  - exact Inv.
  - exact Inv.
  - unfold handleKeyPress.
    destruct (Nat.ltb_spec (length (inputCode st)) 5) as [H5|H5];
      [|exact Inv].
    split; [exact Ht|]. cbn [results inputCode set_inputCode].
    repeat (split; [assumption|]). split.
    + rewrite length_app. simpl. lia.
    + apply Forall_app. split; [exact Hd|].
      constructor; [lia | constructor].
  - split; [exact Ht|]. cbn [results inputCode set_inputCode handleDelete].
    repeat (split; [assumption|]). split.
    + pose proof (length_removelast (inputCode st)). lia.
    + apply all_digits_removelast, Hd.
  - split; [exact Ht|]. cbn [results inputCode set_inputCode handleClear].
    repeat (split; [assumption|]). split; [simpl; lia | constructor].
  - apply records_invariant_searchEffect, Inv.
Qed.

Lemma reachable_records (st : AppState) :
  reachable localeCompare st -> records_invariant st.
Proof.
  induction 1 as [|st ev _ IH Hev].
  - apply records_invariant_initial.
  - apply records_invariant_step; assumption.
Qed.

End ReachableRecords.

(** X5: in every state the component reaches, a published index was built
    by [processCSV] from some text, and every entry it holds is a valid
    record: character, definition and pinyin present, the code a numeral.
    The entries in the result list are valid records too. *)
Theorem published_records_are_valid
        (localeCompare : Str.t -> Str.t -> Z) (st : AppState) :
  reachable localeCompare st ->
  (forall index,
      trie st = Some index ->
      (exists text count, build_index text = Normal (index, count))
      /\ Forall valid_record (collectAll (root index)))
  /\ Forall valid_record (results st).
Proof.
  intros Hr. destruct (reachable_records Hr) as (Ht & Hres & _).
  split; [|exact Hres].
  intros index T. destruct (Ht index T) as (text & count & B).
  split; [exists text, count; exact B|].
  apply (build_index_valid text B).
Qed.

Lemma published_records_are_valid_witness :
  Forall valid_record (results ordering_state).
Proof.
  exact (proj2 (@published_records_are_valid ordinal_compare ordering_state
                  ordering_state_reachable)).
Defined.

(** X6: in every state the component reaches, the query is a string of at
    most five ASCII digits: a key pressed when five are typed is
    ignored. *)
Theorem query_is_short_numeral
        (localeCompare : Str.t -> Str.t -> Z) (st : AppState) :
  reachable localeCompare st ->
  length (inputCode st) <= 5 /\ all_digits (inputCode st).
Proof.
  intros Hr. destruct (reachable_records Hr) as (_ & _ & _ & Hq & Hd).
  split; assumption.
Qed.

Lemma query_is_short_numeral_witness :
  length (inputCode ordering_state) <= 5
  /\ all_digits (inputCode ordering_state).
Proof.
  exact (@query_is_short_numeral ordinal_compare ordering_state
           ordering_state_reachable).
Defined.

(** X7: in every state the component reaches, the search effect presents
    at most 100 entries, each a valid record found by [Trie.search] in the
    published index for the current query, with a code that starts with
    the query. *)
Theorem shown_candidates_match_query
        (localeCompare : Str.t -> Str.t -> Z) (st : AppState) (e : Entry) :
  reachable localeCompare st ->
  In e (results (fst (searchEffect localeCompare st))) ->
  length (results (fst (searchEffect localeCompare st))) <= 100
  /\ starts_with (inputCode st) (code e)
  /\ valid_record e
  /\ exists index, trie st = Some index /\ In e (search index (inputCode st)).
Proof.
  intros Hr He.
  destruct (reachable_invariant Hr) as [Hk Hnone].
  pose proof (reachable_records
                (@reachable_step localeCompare st SearchEffectRan Hr I))
    as Inv.
  destruct Inv as (_ & Hv & Hl & _).
  simpl step in Hv, Hl.
  split; [exact Hl|].
  rewrite Forall_forall in Hv. pose proof (Hv e He) as Hve.
  destruct (trie st) as [index|] eqn:T.
  - destruct (Str.nonempty (inputCode st)) eqn:Q.
    + apply nonempty_spec in Q.
      rewrite (searchEffect_query localeCompare st T Q) in He.
      cbn [fst results set_results] in He.
      apply In_firstn in He.
      apply (Permutation_in _ (sort_perm _ _)) in He.
      split; [|split; [exact Hve | exists index; auto]].
      destruct (Hk index eq_refl) as [_ K].
      apply (@keyed_search index (inputCode st) e K He).
    + assert (Q' : inputCode st = [])
        by (destruct (inputCode st); [reflexivity | discriminate]).
      rewrite (searchEffect_empty localeCompare st T Q') in He.
      contradiction.
  - unfold searchEffect in He. rewrite T in He. simpl in He.
    rewrite (Hnone eq_refl) in He. contradiction.
Qed.

Lemma shown_candidates_match_query_witness :
  starts_with (Str.lit "123") (Str.lit "1234").
Proof.
  apply (@shown_candidates_match_query ordinal_compare ordering_state
           (mkEntry (mkCharData (Some (Str.lit "B")) (Str.lit "second")
                                (Some (Str.lit "b")) (Some (Str.lit "p")))
                    (Str.lit "1234"))
           ordering_state_reachable).
  vm_compute. right. left. reflexivity.
Defined.

(** ** Typing and deleting *)

Lemma chars_of_snoc (q : Str.t) (d : N) :
  Str.is_low_surrogate d = false ->
  Str.chars_of (q ++ [d]) = Str.chars_of q ++ [[d]].
Proof.
  intros Hd.
  induction q as [|c|hi lo s IH1 IH2] using pair_induction.
  - reflexivity.
  - change (Str.chars_of ([c] ++ [d])) with
      (if Str.is_high_surrogate c && Str.is_low_surrogate d
       then [[c; d]] else [[c]; [d]]).
    rewrite Hd, andb_false_r. reflexivity.
  - change (Str.chars_of ((hi :: lo :: s) ++ [d])) with
      (if Str.is_high_surrogate hi && Str.is_low_surrogate lo
       then [hi; lo] :: Str.chars_of (s ++ [d])
       else [hi] :: Str.chars_of ((lo :: s) ++ [d])).
    change (Str.chars_of (hi :: lo :: s)) with
      (if Str.is_high_surrogate hi && Str.is_low_surrogate lo
       then [hi; lo] :: Str.chars_of s
       else [hi] :: Str.chars_of (lo :: s)).
    rewrite IH1, IH2.
    destruct (Str.is_high_surrogate hi && Str.is_low_surrogate lo);
      reflexivity.
Qed.

Lemma walk_app (l1 l2 : list Str.t) :
  forall node,
    walk (l1 ++ l2) node =
    match walk l1 node with
    | Some n => walk l2 n
    | None => None
    end.
Proof.
  induction l1 as [|c l1 IH]; intros node; simpl; [reflexivity|].
  destruct (Obj.get (children node) c); [apply IH | reflexivity].
Qed.

Lemma get_split (V : Type) (o : Obj.t V) (k : Str.t) (v : V) :
  Obj.get o k = Some v -> exists l1 l2, o = l1 ++ (k, v) :: l2.
Proof.
  intros G. destruct (@replace_spec V o k v v G) as (l1 & l2 & H & _).
  exists l1, l2. exact H.
Qed.

(** X8: typing one more digit narrows the search: what [Trie.search]
    returns for the longer prefix is one run of consecutive entries of
    what it returns for the shorter one, on any index. *)
Theorem typing_narrows_search (index : Trie) (q : Str.t) (key : N) :
  (key <= 9)%N ->
  exists before after,
    search index q =
    before ++ search index (q ++ Str.of_digit key) ++ after.
Proof.
  intros Hkey. unfold search, Str.of_digit.
  rewrite chars_of_snoc, walk_app.
  2:{ unfold Str.is_low_surrogate. apply andb_false_iff. left.
      apply N.leb_gt. lia. }
  destruct (walk (Str.chars_of q) (root index)) as [n|].
  - cbn [walk].
    destruct (Obj.get (children n) [(48 + key)%N]) as [child|] eqn:G.
    + destruct (get_split _ _ G) as (l1 & l2 & Hch).
      rewrite (collectAll_node n), Hch, flat_map_app. cbn [flat_map snd].
      exists (characters n ++ flat_map (fun kc => collectAll (snd kc)) l1),
        (flat_map (fun kc => collectAll (snd kc)) l2).
      rewrite <- !app_assoc. reflexivity.
    + exists (collectAll n), []. rewrite app_nil_r. reflexivity.
  - exists [], []. reflexivity.
Qed.

Lemma typing_narrows_search_witness :
  exists before after,
    search (fst (ingest 10 (Str.split newline sample_text) (newTrie, 0)))
           (Str.lit "502") =
    before
    ++ search (fst (ingest 10 (Str.split newline sample_text) (newTrie, 0)))
              (Str.lit "502" ++ Str.of_digit 3)
    ++ after.
Proof.
  apply (@typing_narrows_search
           (fst (ingest 10 (Str.split newline sample_text) (newTrie, 0)))
           (Str.lit "502") 3).
  vm_compute. discriminate.
Defined.

(** X9: the delete key undoes a key press that was taken (fewer than five
    digits typed); a key pressed with five digits typed changes
    nothing. *)
Theorem delete_undoes_key (key : N) (st : AppState) :
  (length (inputCode st) < 5 -> handleDelete (handleKeyPress key st) = st)
  /\ (5 <= length (inputCode st) -> handleKeyPress key st = st)
  /\ (5 <= length (inputCode st) ->
      inputCode (handleDelete (handleKeyPress key st)) =
      removelast (inputCode st)).
Proof.
  unfold handleKeyPress, handleDelete.
  split; [|split]; intros H.
  - apply Nat.ltb_lt in H. rewrite H.
    destruct st. unfold set_inputCode, Str.of_digit. simpl.
    rewrite removelast_last. reflexivity.
  - apply Nat.ltb_ge in H. rewrite H. reflexivity.
  - apply Nat.ltb_ge in H. rewrite H. reflexivity.
Qed.

(** ** One run of [processCSV] after another *)

(** X10: a successful run of [processCSV] leaves no trace of the run
    before it: the state is the one the successful run alone would have
    given, and no error is shown, whether the earlier run failed or
    not. *)
Theorem successful_run_replaces_previous
        (text earlier : Str.t) (st : AppState)
        (index : Trie) (count : nat) :
  build_index text = Normal (index, count) ->
  processCSV text (processCSV earlier st) = processCSV text st
  /\ trie (processCSV text (processCSV earlier st)) = Some index
  /\ datasetSize (processCSV text (processCSV earlier st)) = count
  /\ error (processCSV text (processCSV earlier st)) = None
  /\ loading (processCSV text (processCSV earlier st)) = false
  /\ showUploader (processCSV text (processCSV earlier st)) = false.
Proof.
  intros B.
  assert (E : forall s, processCSV text s = publish index count s).
  { intros s. unfold processCSV. rewrite B. reflexivity. }
  rewrite !E. split; [|repeat split].
  unfold processCSV.
  destruct (build_index earlier) as [[t n]|message]; reflexivity.
Qed.

Lemma successful_run_replaces_previous_witness :
  processCSV sample_text (processCSV codeless_text initialState) =
  processCSV sample_text initialState.
Proof.
  assert (B : build_index sample_text =
              Normal (fst (ingest 10 (Str.split newline sample_text)
                                  (newTrie, 0)), 3))
    by (vm_compute; reflexivity).
  exact (proj1 (@successful_run_replaces_previous sample_text codeless_text
                  initialState _ _ B)).
Defined.

(** ** The first load *)

(** X11: however the request of [fetchData] ends, the component stops
    loading; it then either shows no error and has published a new index
    built from the fetched text, or shows an error together with the
    uploader and keeps the index and the count it had. *)
Theorem fetch_always_settles (outcome : FetchOutcome) (st : AppState) :
  loading (fetchData outcome st) = false
  /\ ((error (fetchData outcome st) = None
       /\ showUploader (fetchData outcome st) = false
       /\ exists text index count,
            outcome = Responded true text
            /\ build_index text = Normal (index, count)
            /\ trie (fetchData outcome st) = Some index
            /\ datasetSize (fetchData outcome st) = count)
      \/ (error (fetchData outcome st) <> None
          /\ showUploader (fetchData outcome st) = true
          /\ trie (fetchData outcome st) = trie st
          /\ datasetSize (fetchData outcome st) = datasetSize st)).
Proof.
  destruct outcome as [|[|] text]; simpl.
  - split; [reflexivity|]. right. repeat split. discriminate.
  - unfold processCSV.
    destruct (build_index text) as [[t n]|message] eqn:B; simpl.
    + split; [reflexivity|]. left. repeat split.
      exists text, t, n. repeat split. exact B.
    + split; [reflexivity|]. right. repeat split. discriminate.
  - split; [reflexivity|]. right. repeat split. discriminate.
Qed.

(** ** Lines that end with a carriage return *)

Lemma split_snoc (sep x : N) (s : Str.t) :
  x <> sep ->
  Str.split sep (s ++ [x]) =
  removelast (Str.split sep s) ++ [last (Str.split sep s) [] ++ [x]].
Proof.
  intros Hx. induction s as [|c s IH]; simpl.
  - apply N.eqb_neq in Hx. rewrite Hx. reflexivity.
  - destruct (N.eqb c sep).
    + rewrite IH.
      destruct (Str.split sep s) as [|h tl] eqn:E;
        [exfalso; exact (split_not_nil sep s E)|].
      reflexivity.
    + rewrite IH.
      destruct (Str.split sep s) as [|h tl] eqn:E;
        [exfalso; exact (split_not_nil sep s E)|].
      destruct tl as [|h' tl']; reflexivity.
Qed.

Lemma not_code45_snoc (c : Str.t) (x : N) :
  Str.is_digit x = false -> ~ is_code45 (c ++ [x]).
Proof.
  intros Hx [Hd _]. unfold all_digits in Hd. rewrite Forall_forall in Hd.
  assert (H : (48 <= x <= 57)%N) by (apply Hd, in_or_app; right; left; reflexivity).
  apply is_digit_spec in H. congruence.
Qed.

(** X12: the detection does not trim the lines it samples.  If every
    sampled line with at least five columns ends with a carriage return
    and has no 4-5 digit column before its last one, the detection fails
    and [processCSV] reports the error, although the row loop, which
    trims each line, could accept such rows. *)
Theorem carriage_return_hides_last_column (text : Str.t) (st : AppState) :
  (forall line,
      In line (firstn 50 (Str.split newline text)) ->
      length (Str.split pipe line) < 5
      \/ exists body,
           line = body ++ [13%N]
           /\ forall c, In c (removelast (Str.split pipe body)) ->
                        ~ is_code45 c) ->
  detect_code_index (Str.split newline text) = (-1)%Z
  /\ build_index text = Throw detection_error
  /\ trie (processCSV text st) = trie st
  /\ error (processCSV text st) = Some detection_error.
Proof.
  intros H.
  assert (D : detect_code_index (Str.split newline text) = (-1)%Z).
  { rewrite detect_code_index_sample. apply scan_lines_none.
    intros line Hl. destruct (H line Hl) as [Hs|(body & -> & Hb)].
    - left. exact Hs.
    - right. intros c Hc.
      rewrite split_snoc in Hc by discriminate.
      apply in_app_or in Hc. destruct Hc as [Hc|[<-|[]]].
      + apply Hb, Hc.
      + apply not_code45_snoc. reflexivity. }
  split; [exact D|].
  destruct (build_index_cases text) as [[_ B]|[N _]]; [|contradiction].
  unfold processCSV. rewrite B. repeat split.
Qed.

Lemma carriage_return_hides_last_column_witness :
  build_index crlf_text = Throw detection_error
  /\ accepts 10 (Str.split pipe (Str.trim (sample_row ++ [13%N]))) = true.
Proof.
  split; [|vm_compute; reflexivity].
  refine (proj1 (proj2 (@carriage_return_hides_last_column crlf_text
                          initialState _))).
  intros line Hl. vm_compute in Hl.
  destruct Hl as [<-|[<-|[<-|[]]]].
  - right. exists sample_row. split; [reflexivity|].
    intros c Hc. rewrite <- test_d45_spec. vm_compute in Hc.
    repeat (destruct Hc as [<-|Hc]; [vm_compute; discriminate|]).
    contradiction.
  - right. exists (Str.lit "D|d|long code|3|4|5|6|7|8|p|50231").
    split; [reflexivity|].
    intros c Hc. rewrite <- test_d45_spec. vm_compute in Hc.
    repeat (destruct Hc as [<-|Hc]; [vm_compute; discriminate|]).
    contradiction.
  - left. vm_compute. lia.
Defined.

(** ** The order of the traversal *)

Lemma array_index_digit (d : N) :
  (48 <= d <= 57)%N -> Obj.array_index [d] = Some (d - 48)%N.
Proof.
  intros H. unfold Obj.array_index, Obj.decimal. cbn [forallb fold_left].
  assert (Hd : Str.is_digit d = true) by (apply is_digit_spec, H).
  rewrite Hd. cbn [Str.nonempty negb andb].
  rewrite orb_true_r. cbn [andb].
  replace (10 * 0 + (d - 48))%N with (d - 48)%N by lia.
  assert (L : (d - 48 <=? 4294967294)%N = true) by (apply N.leb_le; lia).
  rewrite L. reflexivity.
Qed.

Lemma get_none_keys (V : Type) (o : Obj.t V) (k : Str.t) :
  Obj.get o k = None -> Forall (fun kc => fst kc <> k) o.
Proof.
  induction o as [|[k' v'] o IH]; simpl; [constructor|].
  destruct (Str.eqb k' k) eqn:E; [discriminate|].
  intros G. constructor; [apply str_eqb_neq, E | apply IH, G].
Qed.

Section DigitKeys.
Variable V : Type.
Let key_order := fun a b : Str.t * V => key_lt (fst a) (fst b).

Lemma key_lt_trans (k1 k2 k3 : Str.t) :
  key_lt k1 k2 -> key_lt k2 k3 -> key_lt k1 k3.
Proof.
  intros (a & b & -> & -> & H1) (b' & c & [= <-] & -> & H2).
  exists a, c. repeat split. lia.
Qed.

(** A new digit key goes to its place in the ascending order. *)
Lemma add_index_sorted (o : Obj.t V) (d : N) (v : V) :
  (48 <= d <= 57)%N ->
  Forall (fun kc => digit_key (fst kc)) o ->
  StronglySorted key_order o ->
  Forall (fun kc => fst kc <> [d]) o ->
  StronglySorted key_order (Obj.add_index o (d - 48)%N [d] v).
Proof.
  intros Hd. induction o as [|[k' v'] o IH]; intros Hk Hs Hn; simpl.
  - constructor; constructor.
  - inversion Hk as [|? ? (d' & Hk' & Hd') Hk'']; subst.
    inversion Hs as [|? ? Hs' Hlt]; subst.
    inversion Hn as [|? ? Hne Hn']; subst.
    simpl in Hk'. subst k'. simpl in Hne.
    rewrite array_index_digit by exact Hd'.
    destruct (N.ltb_spec (d' - 48) (d - 48)) as [L|L].
    + constructor; [apply IH; assumption|].
      destruct (add_index_spec o (d - 48)%N [d] v) as (l1 & l2 & Ho & ->).
      subst o. apply Forall_app in Hlt. destruct Hlt as [H1 H2].
      apply Forall_app. split; [exact H1|].
      constructor; [|exact H2].
      exists d', d. repeat split. lia.
    + assert (Hlt' : (d < d')%N).
      { assert (d <> d') by congruence. lia. }
      constructor; [exact Hs|].
      constructor.
      * exists d, d'. repeat split. exact Hlt'.
      * eapply Forall_impl; [|exact Hlt]. intros kc H.
        apply key_lt_trans with [d']; [|exact H].
        exists d, d'. repeat split. exact Hlt'.
Qed.

Lemma set_sorted (o : Obj.t V) (d : N) (v : V) :
  (48 <= d <= 57)%N ->
  Forall (fun kc => digit_key (fst kc)) o ->
  StronglySorted key_order o ->
  Forall (fun kc => digit_key (fst kc)) (Obj.set o [d] v)
  /\ StronglySorted key_order (Obj.set o [d] v).
Proof.
  intros Hd Hk Hs.
  assert (Hkd : digit_key [d]) by (exists d; auto).
  split.
  - destruct (set_spec o [d] v) as [(_ & l1 & l2 & -> & ->)
                                   |(old & l1 & l2 & _ & -> & -> & _)];
      apply Forall_app in Hk; destruct Hk as [H1 H2]; apply Forall_app;
      split; auto.
    inversion H2; subst. constructor; auto.
  - unfold Obj.set. destruct (Obj.get o [d]) as [old|] eqn:G.
    + destruct (@replace_spec V o [d] v old G) as (l1 & l2 & -> & -> & _).
      clear G Hk. induction l1 as [|x l1 IH]; simpl in *.
      * inversion Hs; subst. constructor; assumption.
      * inversion Hs as [|? ? Hs' Hx]; subst.
        constructor; [apply IH, Hs'|].
        apply Forall_app in Hx. destruct Hx as [H1 H2].
        apply Forall_app. split; [exact H1|].
        inversion H2; subst. constructor; assumption.
    + rewrite array_index_digit by exact Hd.
      apply add_index_sorted; auto. apply get_none_keys, G.
Qed.

End DigitKeys.

Lemma digit_keyed_new : digit_keyed newTrieNode.
Proof. constructor; constructor. Qed.

Lemma digit_keyed_inv (node : TrieNode) :
  digit_keyed node ->
  Forall (fun kc => digit_key (fst kc)) (children node)
  /\ StronglySorted (fun a b => key_lt (fst a) (fst b)) (children node)
  /\ Forall (fun kc => digit_keyed (snd kc)) (children node).
Proof. intros H. inversion H; subst. simpl. auto. Qed.

Lemma digit_keyed_child (node child : TrieNode) (k : Str.t) :
  digit_keyed node -> Obj.get (children node) k = Some child ->
  digit_keyed child.
Proof.
  intros H G. apply digit_keyed_inv in H. destruct H as (_ & _ & H).
  rewrite Forall_forall in H. apply get_in in G. apply (H _ G).
Qed.

(** Inserting under a code of ASCII digits keeps the children keyed by
    digits in ascending order. *)
Lemma digit_keyed_insert_from (ds : list N) (e : Entry) :
  Forall (fun d => (48 <= d <= 57)%N) ds ->
  forall node,
    digit_keyed node ->
    digit_keyed (insert_from (map (fun d => [d]) ds) e node).
Proof.
  induction 1 as [|d ds Hd _ IH]; intros node K; cbn [map insert_from];
    destruct (digit_keyed_inv K) as (Hk & Hs & Hc).
  - constructor; assumption.
  - set (child := match Obj.get (children node) [d] with
                  | Some n => n | None => newTrieNode end).
    assert (Kc : digit_keyed (insert_from (map (fun d => [d]) ds) e child)).
    { apply IH. subst child.
      destruct (Obj.get (children node) [d]) eqn:G.
      - eapply digit_keyed_child; eauto.
      - apply digit_keyed_new. }
    destruct (set_sorted (insert_from (map (fun d => [d]) ds) e child)
                         Hd Hk Hs) as [Hk' Hs'].
    constructor; [exact Hk' | exact Hs' |].
    destruct (set_spec (children node) [d]
                       (insert_from (map (fun d => [d]) ds) e child))
      as [(_ & l1 & l2 & Ho & ->)|(old & l1 & l2 & _ & Ho & -> & _)];
      rewrite Ho in Hc; apply Forall_app in Hc; destruct Hc as [H1 H2];
      apply Forall_app; split; auto.
    inversion H2; subst. constructor; auto.
Qed.

Lemma digit_keyed_insert (c : Str.t) (d : CharData) (t : Trie) :
  all_digits c -> digit_keyed (root t) -> digit_keyed (root (insert c d t)).
Proof.
  intros Hc K. unfold insert. destruct (Str.nonempty c); simpl; [|exact K].
  rewrite (chars_of_digits Hc). apply digit_keyed_insert_from; assumption.
Qed.

Lemma digit_keyed_walk (chars : list Str.t) :
  forall node n,
    digit_keyed node -> walk chars node = Some n -> digit_keyed n.
Proof.
  induction chars as [|c rest IH]; intros node n K; simpl.
  - intros [= <-]. exact K.
  - destruct (Obj.get (children node) c) as [child|] eqn:G; [|discriminate].
    apply IH. eapply digit_keyed_child; eauto.
Qed.

Lemma build_index_digit_keyed (text : Str.t) (index : Trie) (count : nat) :
  build_index text = Normal (index, count) -> digit_keyed (root index).
Proof.
  destruct (build_index_cases text) as [[_ ->]|[_ ->]]; [discriminate|].
  intros [= E].
  change index with (fst (index, count)). rewrite <- E.
  apply (ingest_invariant (fun acc => digit_keyed (root (fst acc)))).
  - intros t n c d [_ Hc] K. apply digit_keyed_insert; assumption.
  - apply digit_keyed_new.
Qed.

(** ** Codes in traversal order *)

Lemma lex_compare_app (p a b : list N) :
  Str.lex_compare (p ++ a) (p ++ b) = Str.lex_compare a b.
Proof.
  induction p as [|x p IH]; simpl; [reflexivity|].
  rewrite N.compare_refl. exact IH.
Qed.

Lemma lex_compare_prefix (p r : list N) : Str.lex_compare p (p ++ r) <> Gt.
Proof.
  rewrite <- (app_nil_r p) at 1. rewrite lex_compare_app.
  destruct r; simpl; congruence.
Qed.

Lemma lex_compare_extension (p r : list N) :
  Str.lex_compare (p ++ r) p <> Gt -> r = [].
Proof.
  rewrite <- (app_nil_r p) at 2. rewrite lex_compare_app.
  destruct r; simpl; congruence.
Qed.

Lemma StronglySorted_app (A : Type) (R : A -> A -> Prop) (l1 l2 : list A) :
  StronglySorted R l1 -> StronglySorted R l2 ->
  (forall a b, In a l1 -> In b l2 -> R a b) ->
  StronglySorted R (l1 ++ l2).
Proof.
  induction 1 as [|x l1 S1 IH Hx]; intros S2 Hc; simpl; [exact S2|].
  constructor.
  - apply IH; [exact S2|]. intros a b Ha Hb. apply Hc; [right; exact Ha|exact Hb].
  - apply Forall_app. split; [exact Hx|].
    apply Forall_forall. intros b Hb. apply Hc; [left; reflexivity|exact Hb].
Qed.

(** The entries below a child keyed by the digit [d] of a node reached
    along [path] have a code that reads the path and then [d]. *)
Lemma child_codes (path : list Str.t) (d : N) (child : TrieNode) (e : Entry) :
  keyed_by_path (path ++ [[d]]) child -> In e (collectAll child) ->
  exists r, code e = concat path ++ d :: r.
Proof.
  intros K He. destruct (@keyed_collectAll child _ e K He) as [more Hm].
  exists (concat more).
  rewrite <- (concat_chars_of (code e)), Hm, !concat_app. simpl.
  rewrite <- app_assoc. reflexivity.
Qed.

(** [collectAll] yields the entries of a node with digit keys in
    ascending order of their codes. *)
Lemma collectAll_sorted (node : TrieNode) :
  forall path,
    keyed_by_path path node -> digit_keyed node ->
    StronglySorted code_le (collectAll node).
Proof.
  induction node as [ch cs IH] using TrieNode_ind; intros path K D.
  destruct (keyed_inv K) as [Kcs Kch].
  destruct (digit_keyed_inv D) as (Hk & Hs & Hd).
  cbn [children characters] in *.
  rewrite collectAll_eq.
  assert (Hown : forall e, In e cs -> code e = concat path).
  { rewrite Forall_forall in Kcs. intros e He.
    rewrite <- (concat_chars_of (code e)), (Kcs e He). reflexivity. }
  apply StronglySorted_app.
  - clear - Hown. induction cs as [|e cs IHc]; constructor.
    + apply IHc. intros x Hx. apply Hown. right. exact Hx.
    + apply Forall_forall. intros x Hx. unfold code_le.
      rewrite (Hown e), (Hown x) by (simpl; auto).
      rewrite lex_compare_refl. congruence.
  - clear Hown Kcs K D.
    induction ch as [|[k child] ch IHch]; simpl; [constructor|].
    inversion IH as [|? ? IHchild IH']; subst.
    inversion Kch as [|? ? Kchild Kch']; subst.
    inversion Hk as [|? ? (d & Hkd & Hdig) Hk']; subst.
    inversion Hs as [|? ? Hs' Hlt]; subst.
    inversion Hd as [|? ? Dchild Hd']; subst.
    cbn [fst snd] in *. subst k.
    apply StronglySorted_app.
    + apply (IHchild (path ++ [[d]])); assumption.
    + apply IHch; assumption.
    + intros a b Ha Hb. apply in_flat_map in Hb.
      destruct Hb as ([k2 child2] & Hin & Hb). cbn [snd] in Hb.
      rewrite Forall_forall in Hlt, Kch'.
      destruct (Hlt _ Hin) as (d1 & d2 & [= <-] & Hk2 & Hlt12).
      cbn [fst] in Hk2. subst k2.
      destruct (@child_codes path d child a Kchild Ha) as [r1 E1].
      pose proof (Kch' _ Hin) as K2. cbn [fst snd] in K2.
      destruct (@child_codes path d2 child2 b K2 Hb) as [r2 E2].
      unfold code_le. rewrite E1, E2, lex_compare_app. simpl.
      apply N.compare_lt_iff in Hlt12. rewrite Hlt12. congruence.
  - intros a b Ha Hb. apply in_flat_map in Hb.
    destruct Hb as ([k2 child2] & Hin & Hb). cbn [snd] in Hb.
    rewrite Forall_forall in Hk, Kch.
    destruct (Hk _ Hin) as (d & Hkd & _). cbn [fst] in Hkd. subst k2.
    pose proof (Kch _ Hin) as K2. cbn [fst snd] in K2.
    destruct (@child_codes path d child2 b K2 Hb) as [r2 E2].
    unfold code_le. rewrite (Hown a Ha), E2. apply lex_compare_prefix.
Qed.

Lemma StronglySorted_within (A : Type) (R R' : A -> A -> Prop) (l : list A) :
  StronglySorted R l ->
  (forall a b, In a l -> In b l -> R a b -> R' a b) ->
  StronglySorted R' l.
Proof.
  induction 1 as [|x l S IH Hx]; intros H; constructor.
  - apply IH. intros a b Ha Hb. apply H; right; assumption.
  - rewrite Forall_forall in Hx |- *. intros y Hy.
    apply H; [left; reflexivity | right; exact Hy | apply Hx, Hy].
Qed.

(** Sorting an array that the comparator already finds in order leaves it
    as it is. *)
Lemma sort_in_order (A : Type) (compareFn : A -> A -> Z) (l : list A) :
  StronglySorted (fun a b => (compareFn a b <=? 0)%Z = true) l ->
  Arr.sort compareFn l = l.
Proof.
  induction 1 as [|x l S IH Hx]; simpl; [reflexivity|].
  rewrite IH. destruct l as [|y l]; simpl; [reflexivity|].
  inversion Hx as [|? ? Hxy _]; subst. rewrite Hxy. reflexivity.
Qed.

(** On an index with digit codes and digit keys, [search] returns its
    entries in result order. *)
Lemma search_in_result_order (index : Trie) (q : Str.t) :
  digit_codes index -> keyed_by_path [] (root index) ->
  digit_keyed (root index) ->
  StronglySorted (in_result_order q) (search index q).
Proof.
  intros Hd K D.
  assert (Hs : StronglySorted code_le (search index q)).
  { unfold search.
    destruct (walk (Str.chars_of q) (root index)) as [n|] eqn:W;
      [|constructor].
    apply (@collectAll_sorted n (Str.chars_of q)).
    - apply (keyed_walk _ K W).
    - apply (digit_keyed_walk _ D W). }
  apply (@StronglySorted_within _ code_le _ _ Hs).
  intros a b Ha Hb Hab.
  assert (Da : all_digits (code a)).
  { unfold digit_codes in Hd. rewrite Forall_forall in Hd.
    apply Hd, (search_incl index q), Ha. }
  assert (Db : all_digits (code b)).
  { unfold digit_codes in Hd. rewrite Forall_forall in Hd.
    apply Hd, (search_incl index q), Hb. }
  destruct (@keyed_search index q a K Ha) as [r Hr].
  unfold code_le in Hab. split.
  - intros Eb. rewrite Eb, Hr in Hab.
    apply lex_compare_extension in Hab. rewrite Hr, Hab.
    apply app_nil_r.
  - intros _. unfold Str.code_point_compare.
    rewrite !code_points_digits by assumption. exact Hab.
Qed.

(** X13: in every state the component reaches (under a collation that
    orders digit strings by code points), the entries [Trie.search]
    returns are already in result order: the children of a node are
    enumerated in ascending order of their digit, whatever the order of
    the insertions, so the sort of the search effect moves nothing and
    the results are the first 100 entries of the traversal. *)
Theorem traversal_is_in_result_order
        (localeCompare : Str.t -> Str.t -> Z) (st : AppState)
        (index : Trie) :
  collates_digits localeCompare ->
  reachable localeCompare st ->
  trie st = Some index ->
  (forall q,
      Arr.sort (compare_matches localeCompare q) (search index q) =
      search index q)
  /\ (inputCode st <> [] ->
      results (fst (searchEffect localeCompare st)) =
      firstn 100 (search index (inputCode st))).
Proof.
  intros Hc Hr T.
  destruct (reachable_records Hr) as (Ht & _).
  destruct (Ht index T) as (text & count & B).
  destruct (build_index_sound text B) as (Hd & K & _). simpl in Hd, K.
  pose proof (build_index_digit_keyed text B) as D.
  assert (E : forall q,
             Arr.sort (compare_matches localeCompare q) (search index q) =
             search index q).
  { intros q. apply sort_in_order.
    apply (@StronglySorted_within _ (in_result_order q) _ _
             (@search_in_result_order index q Hd K D)).
    intros a b Ha Hb Hab.
    unfold digit_codes in Hd. rewrite Forall_forall in Hd.
    apply (compare_matches_order Hc);
      [apply Hd, (search_incl index q), Ha
      |apply Hd, (search_incl index q), Hb
      |exact Hab]. }
  split; [exact E|].
  intros Q. rewrite (searchEffect_query localeCompare st T Q).
  cbn [fst results set_results]. rewrite E. reflexivity.
Qed.

Lemma traversal_is_in_result_order_witness :
  results (fst (searchEffect ordinal_compare ordering_state)) =
  firstn 100
    (search (fst (ingest 10 (Str.split newline ordering_text) (newTrie, 0)))
            (inputCode ordering_state)).
Proof.
  assert (T : trie ordering_state =
              Some (fst (ingest 10 (Str.split newline ordering_text)
                                (newTrie, 0))))
    by (vm_compute; reflexivity).
  assert (Q : inputCode ordering_state <> [])
    by (vm_compute; discriminate).
  exact (proj2 (@traversal_is_in_result_order ordinal_compare ordering_state
                  _ ordinal_compare_collates ordering_state_reachable T) Q).
Defined.
